(** * varlet-ui component utilities: a shallow embedding of
      [packages/varlet-ui/src/utils/components.ts]

    The helpers of that file are modelled one by one, each from its source
    text: the BEM class-name helper of [createNamespace], [formatElevation],
    [flatFragment], the listener dispatcher [call], the validation runner of
    [useValidation] and the two-way binding adapter [useVModel].

    JavaScript data is represented as follows.
    - Primitive values are [Prim].  Numbers are the integer-valued ones (a
      [Z]); fractional numbers, [NaN] and the infinities are outside the
      model, and so is the exponent notation JavaScript prints from 1e21 on.
    - Values that can sit in a props bag are [Val]: primitives, function
      objects and arrays.  Function objects and arrays carry the reference
      that [===] and [Object.is] compare.
    - Strings are Rocq strings; the code only inspects ASCII characters.
    - A props bag is a [gmap string Val]; reading an absent key yields
      [undefined], as in JavaScript. *)

From stdpp Require Import gmap strings list pretty.
From Stdlib Require Import ZArith Ascii.

Local Open Scope Z_scope.

(** ** Primitive values *)

Inductive Prim : Type :=
| PUndefined
| PNull
| PBool (b : bool)
| PNum (n : Z)
| PStr (s : string).

#[global] Instance Prim_eq_dec : EqDecision Prim.
Proof. solve_decision. Defined.

(** [a === b] on primitives.  Without [NaN] in the model it is structural
    equality, and it coincides with SameValueZero and [Object.is]. *)
Definition strict_eq (a b : Prim) : bool := bool_decide (a = b).

(** ToBoolean. *)
Definition truthy (p : Prim) : bool :=
  match p with
  | PUndefined | PNull => false
  | PBool b => b
  | PNum n => negb (n =? 0)
  | PStr s => negb (bool_decide (s = ""))
  end.

(** [String(p)], which is also what a template literal applies to an
    interpolated primitive. *)
Definition js_String (p : Prim) : string :=
  match p with
  | PUndefined => "undefined"
  | PNull => "null"
  | PBool true => "true"
  | PBool false => "false"
  | PNum n => pretty n
  | PStr s => s
  end.

(** ** String helpers used by the class-name functions *)

(** [s.slice(n)] *)
Fixpoint str_drop (n : nat) (s : string) : string :=
  match n, s with
  | O, _ => s
  | S n', String _ s' => str_drop n' s'
  | S _, EmptyString => EmptyString
  end.

(** [s.replace(pat, rep)] for a string pattern: the first occurrence of
    [pat] is replaced, a string without occurrence is returned as it is.
    The [$]-patterns that JavaScript expands inside the replacement text
    are not modelled: the only replacement text in this file is the
    namespace [var], which has none. *)
Fixpoint replace (pat rep s : string) : string :=
  if String.prefix pat s then rep +:+ str_drop (String.length pat) s
  else match s with
       | EmptyString => EmptyString
       | String c s' => String c (replace pat rep s')
       end.

(** [s.startsWith(p)] *)
Definition startsWith (s p : string) : bool := String.prefix p s.

(** [s[0] === c] *)
Definition first_char_is (s : string) (c : Ascii.ascii) : bool :=
  bool_decide (String.get 0 s = Some c).

(** ** createNamespace: the [n] helper *)

Definition namespace : string := "var".

(** [`${namespace}-${name}`] *)
Definition componentName (name : string) : string :=
  namespace +:+ "-" +:+ name.

(** [createBEM(suffix?)]; [None] is the absent (undefined) argument.
    [!suffix] holds for [undefined] and for the empty string. *)
Definition createBEM (name : string) (suffix : option string) : string :=
  match suffix with
  | None => componentName name
  | Some suffix =>
      if bool_decide (suffix = "") then componentName name
      else if first_char_is suffix "$"%char then replace "$" namespace suffix
      else if startsWith suffix "--" then componentName name +:+ suffix
      else componentName name +:+ "__" +:+ suffix
  end.

(** ** formatElevation *)

(** [formatElevation(elevation, defaultLevel?)]; an absent [defaultLevel]
    is [PUndefined], the result [null] is [None]. *)
Definition formatElevation (elevation defaultLevel : Prim) : option string :=
  if strict_eq elevation (PBool false) then None
  else
    let elevation :=
      if strict_eq elevation (PBool true) && truthy defaultLevel
      then defaultLevel else elevation in
    Some ("var-elevation--" +:+ js_String elevation).

(** ** flatFragment *)

(** The [type] of a vnode: the two symbols the function tests for, and
    everything else (element tags, components, the other built-in symbols). *)
Inductive VNodeType : Type :=
| Comment
| Fragment
| Text
| Static
| Element (tag : string)
| ComponentType (id : nat).

#[global] Instance VNodeType_eq_dec : EqDecision VNodeType.
Proof. solve_decision. Defined.

(** A vnode, with the two fields [flatFragment] reads.  [children] is an
    array of vnodes, a string, or null. *)
#[warnings="-register-all"]
Inductive VNode : Type :=
| mkVNode (type : VNodeType) (children : VNodeChildren)
with VNodeChildren : Type :=
| ChildrenArray (items : list VNode)
| ChildrenText (s : string)
| ChildrenNull.

Definition type (v : VNode) : VNodeType :=
  match v with mkVNode t _ => t end.

Definition children (v : VNode) : VNodeChildren :=
  match v with mkVNode _ c => c end.

(** [result.push(item)] *)
Definition push {A} (result : list A) (item : A) : list A := result ++ [item].

(** [array.forEach(f)] threading the array being filled. *)
Definition forEach {A B} (f : B → A → B) (l : list A) (acc : B) : B :=
  foldl f acc l.

Definition flatFragment (vNodes : list VNode) : list VNode :=
  forEach
    (λ result vNode,
       if bool_decide (type vNode = Comment) then result
       else
         match bool_decide (type vNode = Fragment), children vNode with
         | true, ChildrenArray items => forEach push items result
         | _, _ => push result vNode
         end)
    vNodes [].

(** What the description of [flatFragment] says a single node contributes. *)
Definition flat_one (vNode : VNode) : list VNode :=
  match type vNode, children vNode with
  | Comment, _ => []
  | Fragment, ChildrenArray items => items
  | _, _ => [vNode]
  end.

(** The described result: every node replaced by its contribution, in order. *)
Definition flat_described (vNodes : list VNode) : list VNode :=
  mjoin (flat_one <$> vNodes).

(** ** Values of a props bag, function calls and reactive cells *)

(** A JavaScript value as far as this file handles one: a primitive, a
    function object or an array.  [f] and [a] are the references of the
    objects: two arrays with equal items are still two arrays. *)
#[warnings="-register-all"]
Inductive Val : Type :=
| VPrim (p : Prim)
| VFun (f : nat)
| VArr (a : nat) (items : list Val).

Definition VStr (s : string) : Val := VPrim (PStr s).
Definition undefined : Val := VPrim PUndefined.

(** [Object.is(x, y)], the comparison behind Vue's [hasChanged]. *)
Definition same_value (x y : Val) : bool :=
  match x, y with
  | VPrim p, VPrim q => bool_decide (p = q)
  | VFun f, VFun g => bool_decide (f = g)
  | VArr a _, VArr b _ => bool_decide (a = b)
  | _, _ => false
  end.

Definition hasChanged (value oldValue : Val) : bool :=
  negb (same_value value oldValue).

(** [v != null]: neither [null] nor [undefined]. *)
Definition not_nullish (v : Val) : bool :=
  match v with
  | VPrim PUndefined | VPrim PNull => false
  | _ => true
  end.

(** ToBoolean on values: every object is truthy. *)
Definition val_truthy (v : Val) : bool :=
  match v with
  | VPrim p => truthy p
  | _ => true
  end.

(** What an exception carries: the [TypeError] of calling a non-function,
    or the value a callback threw or rejected with. *)
Inductive Thrown : Type :=
| TypeError
| Raised (e : Val).

(** A promise as its eventual settlement. *)
Inductive Settlement : Type :=
| Fulfils (r : Prim)
| Rejects (e : Val).

(** What a callback hands back: a plain value or a promise.  The results
    of validation rules are taken among the primitives ([true] or a
    message, in the intended use). *)
Inductive Ret : Type :=
| Plain (r : Prim)
| Promise (s : Settlement).

(** How a call of a function object ends. *)
Inductive Completion : Type :=
| Returns (r : Ret)
| Throws (e : Val).

(** One recorded call: which function object, with which arguments. *)
Record CallRecord : Type := Call { callee : nat; args : list Val }.

(** The mutable world: the contents of the [ref] cells, and the calls made
    so far to the callbacks the module was handed (rules, [emit],
    listeners), oldest first. *)
Record World : Type := mkWorld { refs : gmap nat Val; calls : list CallRecord }.

(** The result of running a piece of code: a value, an exception (for an
    [async] function: its promise rejects), or an [await] that is never
    resumed. *)
Inductive Outcome (A : Type) : Type :=
| Done (a : A)
| Threw (e : Thrown)
| Pending.
Arguments Done {A} a.
Arguments Threw {A} e.
Arguments Pending {A}.

Definition M (A : Type) : Type := World → Outcome A * World.

Definition ret {A} (a : A) : M A := λ w, (Done a, w).

Definition bind {A B} (m : M A) (k : A → M B) : M B :=
  λ w, match m w with
       | (Done a, w') => k a w'
       | (Threw e, w') => (Threw e, w')
       | (Pending, w') => (Pending, w')
       end.

Definition throw {A} (e : Thrown) : M A := λ w, (Threw e, w).

Notation "'let!' x ':=' m 'in' k" := (bind m (λ x, k))
  (at level 10, x name, m at level 100, k at level 200,
   format "'[v' 'let!'  x  ':='  m  'in' '/' k ']'").
Notation "'do!' m 'in' k" := (bind m (λ _, k))
  (at level 10, m at level 100, k at level 200,
   format "'[v' 'do!'  m  'in' '/' k ']'").

(** [cell.value] *)
Definition read_ref (cell : nat) (w : World) : Val :=
  default undefined (refs w !! cell).

Definition get_ref (cell : nat) : M Val := λ w, (Done (read_ref cell w), w).

(** [cell.value = v] *)
Definition write_ref (cell : nat) (v : Val) (w : World) : World :=
  mkWorld (<[cell := v]> (refs w)) (calls w).

Definition set_ref (cell : nat) (v : Val) : M unit :=
  λ w, (Done tt, write_ref cell v w).

(** [ref(v)]: a new cell. *)
Definition ref (v : Val) : M nat :=
  λ w, let cell := fresh (dom (refs w)) in (Done cell, write_ref cell v w).

Definition record_call (f : nat) (arguments : list Val) (w : World) : World :=
  mkWorld (refs w) (calls w ++ [Call f arguments]).

(** [props[k]] *)
Definition prop (props : gmap string Val) (k : string) : Val :=
  default undefined (props !! k).

Section Callbacks.

(** What each function object does when called.  The callbacks are
    foreign code: a call is recorded and ends as [impl] says; callbacks
    do not write the cells of this module. *)
Variable impl : nat → list Val → Completion.

(** [fn(...args)] for an arbitrary value [fn]. *)
Definition invoke (fn : Val) (arguments : list Val) : M Ret :=
  match fn with
  | VFun f =>
      λ w, match impl f arguments with
           | Returns r => (Done r, record_call f arguments w)
           | Throws e => (Threw (Raised e), record_call f arguments w)
           end
  | _ => throw TypeError
  end.

(** [array.map(f)] for a callback with effects: left to right, stopping
    at the first exception. *)
Fixpoint map_ {A B} (f : A → M B) (l : list A) : M (list B) :=
  match l with
  | [] => ret []
  | x :: l' =>
      let! y := f x in
      let! ys := map_ f l' in
      ret (y :: ys)
  end.

(** [array.some(f)]: stops at the first element on which [f] is true. *)
Fixpoint some {A} (f : A → M bool) (l : list A) : M bool :=
  match l with
  | [] => ret false
  | x :: l' =>
      let! b := f x in
      if b then ret true else some f l'
  end.

(** *** call *)

(** The result of [call]: [R[]], [R] or [undefined]. *)
Inductive CallResult : Type :=
| Results (rs : list Ret)
| Result (r : Ret)
| NoResult.

Definition call (fn : Val) (arguments : list Val) : M CallResult :=
  match fn with
  | VArr _ fs =>
      let! rs := map_ (λ f, invoke f arguments) fs in
      ret (Results rs)
  | _ =>
      if val_truthy fn then
        let! r := invoke fn arguments in
        ret (Result r)
      else ret NoResult
  end.

End Callbacks.

(** ** Promise.all and await *)

Inductive PromiseState (A : Type) : Type :=
| Fulfilled (a : A)
| Rejected (e : Val)
| Unsettled.
Arguments Fulfilled {A} a.
Arguments Rejected {A} e.
Arguments Unsettled {A}.

(** [Promise.resolve(r)]: a plain value becomes a fulfilled promise. *)
Definition settlement (r : Ret) : Settlement :=
  match r with
  | Plain v => Fulfils v
  | Promise s => s
  end.

(** Modelled from the spec: [Promise.all] belongs to the host language and
    is called, not defined, by the source.  The rules are invoked
    concurrently and all of them awaited; the results are collected in the
    order of the rule list, not in completion order; the first rejection
    fails the whole batch.

    The reactions run in the order in which the input promises settle:
    [order] lists indices, earliest first.  A fulfilment stores its value
    at the index of its promise and counts down; the last one resolves with
    the array of values.  The first rejection rejects the whole.  A
    reaction that already ran does nothing. *)
Fixpoint all_reactions (promises : list Settlement) (order : list nat)
    (values : list (option Prim)) (remaining : nat) : PromiseState (list Prim) :=
  match order with
  | [] => Unsettled
  | i :: order' =>
      match promises !! i with
      | None => all_reactions promises order' values remaining
      | Some (Rejects e) => Rejected e
      | Some (Fulfils r) =>
          match values !! i with
          | Some (Some _) => all_reactions promises order' values remaining
          | _ =>
              let values' := <[i := Some r]> values in
              let remaining' := pred remaining in
              if bool_decide (remaining' = 0%nat)
              then Fulfilled (default PUndefined <$> values')
              else all_reactions promises order' values' remaining'
          end
      end
  end.

(** [Promise.all(promises)] under the settling order [order]. *)
Definition Promise_all (promises : list Settlement) (order : list nat)
    : PromiseState (list Prim) :=
  match promises with
  | [] => Fulfilled []
  | _ =>
      all_reactions promises order
        (replicate (length promises) None) (length promises)
  end.

(** [await p] *)
Definition await {A} (p : PromiseState A) : M A :=
  match p with
  | Fulfilled a => ret a
  | Rejected e => throw (Raised e)
  | Unsettled => λ w, (Pending, w)
  end.

(** ** useValidation *)

(** [useValidation()] creates the cell; its three closures follow, with
    the cell as the variable they close over. *)
Definition useValidation : M nat := ref (VStr "").

Section Validation.

Variable impl : nat → list Val → Completion.

(** The order in which the promises of one run settle. *)
Variable order : list nat.

Variable errorMessage : nat.

Definition validate (rules value apis : Val) : M bool :=
  match rules with
  | VArr _ rules =>
      if bool_decide (length rules = 0%nat) then ret true
      else
        let! returned := map_ (λ rule, invoke impl rule [value; apis]) rules in
        let! resArr := await (Promise_all (settlement <$> returned) order) in
        let! failed :=
          some (λ res,
                  if negb (strict_eq res (PBool true)) then
                    do! set_ref errorMessage (VStr (js_String res)) in
                    ret true
                  else ret false)
               resArr in
        ret (negb failed)
  | _ => ret true
  end.

Definition resetValidation : M unit := set_ref errorMessage (VStr "").

(** [validateTrigger.includes(trigger)] *)
Definition includes (validateTrigger : list Prim) (trigger : Prim) : bool :=
  existsb (λ t, strict_eq t trigger) validateTrigger.

Definition validateWithTrigger (validateTrigger : list Prim) (trigger : Prim)
    (rules value apis : Val) : M unit :=
  if includes validateTrigger trigger then
    let! valid := validate rules value apis in
    if valid then set_ref errorMessage (VStr "") else ret tt
  else ret tt.

End Validation.

(** ** useVModel *)

(** The options bag; [None] is an absent field.  An absent [defaultValue]
    is [undefined]. *)
Record UseVModelOptions : Type := {
  passive : option bool;
  eventName : option string;
  defaultValue : Val;
  emit : option nat
}.

(** A [watch(source, cb)] registration.  Both closures read the props bag
    as it is when they run. *)
Record Watch : Type := {
  source : gmap string Val → World → Val;
  cb : gmap string Val → Val → M unit
}.

(** What [useVModel] returns: a writable computed with its two accessors,
    or the [proxy] cell, on which two watchers were registered. *)
Inductive VModel : Type :=
| ComputedRef (get : gmap string Val → Val) (set : gmap string Val → Val → M unit)
| ProxyRef (proxy : nat) (watchers : list Watch).

Section VModel.

Variable impl : nat → list Val → Completion.
Variable key : string.
Variable options : UseVModelOptions.

(** [passive = true] by default *)
Definition is_passive : bool := default true (passive options).

(** [eventName ?? `onUpdate:${key.toString()}`] *)
Definition event : string := default ("onUpdate:" +:+ key) (eventName options).

Definition getValue (props : gmap string Val) : Val :=
  if not_nullish (prop props key) then prop props key else defaultValue options.

(** [emit ? emit(event, value) : call(props[event], value)], the body of
    the computed's setter and of the second watcher. *)
Definition notify (props : gmap string Val) (value : Val) : M unit :=
  match emit options with
  | Some em => do! invoke impl (VFun em) [VStr event; value] in ret tt
  | None => do! call impl (prop props event) [value] in ret tt
  end.

(** The two [watch] registrations of the buffered mode: the first copies
    the resolved value into the proxy when [props[key]] changes, the
    second notifies when [proxy.value] changes. *)
Definition watchers (proxy : nat) : list Watch :=
  [ {| source := λ props _, prop props key;
       cb := λ props _, set_ref proxy (getValue props) |};
    {| source := λ _ w, read_ref proxy w;
       cb := λ props newValue, notify props newValue |} ].

Definition useVModel (props : gmap string Val) : M VModel :=
  if negb is_passive then ret (ComputedRef getValue notify)
  else
    let! proxy := ref (getValue props) in
    ret (ProxyRef proxy (watchers proxy)).

End VModel.

(** ** The reactive runtime around the returned cell *)

(** Modelled from the spec: [watch] belongs to the framework and is
    called, not defined, by the source.  A watcher invokes its callback
    when the value of the tracked expression changes; the comparison is
    [hasChanged].

    One watcher, after a change: its callback runs when the value of its
    source differs from the one it saw last, which is the value in [seen],
    the state before the change.  An exception of the callback goes to the
    framework's error handler, not to the code that made the change. *)
Definition run_watcher (seen : gmap string Val * World) (props : gmap string Val)
    (wt : Watch) (w : World) : World :=
  let newValue := source wt props w in
  if hasChanged newValue (source wt seen.1 seen.2) then (cb wt props newValue w).2
  else w.

(** Modelled from the spec: the framework runs the watchers to a fixpoint
    after every change.  Here they run in registration order, each on the
    world the earlier ones left; the second watcher of [useVModel] thus
    sees what the first one wrote. *)
Definition flush (watchers : list Watch) (seen : gmap string Val * World)
    (props : gmap string Val) (w : World) : World :=
  foldl (λ w wt, run_watcher seen props wt w) w watchers.

(** Reading the cell. *)
Definition cell_get (m : VModel) (props : gmap string Val) (w : World) : Val :=
  match m with
  | ComputedRef get _ => get props
  | ProxyRef proxy _ => read_ref proxy w
  end.

(** Writing the cell: the computed's setter, or an assignment to the
    proxy followed by its watchers. *)
Definition cell_set (m : VModel) (props : gmap string Val) (v : Val) : M unit :=
  match m with
  | ComputedRef _ set => set props v
  | ProxyRef proxy watchers =>
      λ w, (Done tt, flush watchers (props, w) props (write_ref proxy v w))
  end.

(** What happens around a binding: the owner of the props bag replaces it,
    or the component writes the cell. *)
Inductive Action : Type :=
| PropsUpdate (props' : gmap string Val)
| CellWrite (v : Val).

(** One step, watchers included. *)
Definition step (m : VModel) (st : gmap string Val * World) (a : Action)
    : gmap string Val * World :=
  match a with
  | PropsUpdate props' =>
      match m with
      | ComputedRef _ _ => (props', st.2)
      | ProxyRef _ watchers => (props', flush watchers st props' st.2)
      end
  | CellWrite v => (st.1, (cell_set m st.1 v st.2).2)
  end.

(** ** Vocabulary for the statements about a validation run *)

Section Rules.

Variable impl : nat → list Val → Completion.
Variables value apis : Val.

(** What [rule(value, apis)] hands back, when the call returns. *)
Definition rule_return (rule : Val) : option Ret :=
  match rule with
  | VFun f =>
      match impl f [value; apis] with
      | Returns r => Some r
      | Throws _ => None
      end
  | _ => None
  end.

(** What [rule(value, apis)] throws, when the call throws; calling
    something that is not a function is a [TypeError]. *)
Definition rule_throw (rule : Val) : option Thrown :=
  match rule with
  | VFun f =>
      match impl f [value; apis] with
      | Returns _ => None
      | Throws e => Some (Raised e)
      end
  | _ => Some TypeError
  end.

(** The awaited result of a rule: the value it returns, or the value its
    promise fulfils with. *)
Definition rule_result (rule : Val) : option Prim :=
  match rule_return rule with
  | Some r =>
      match settlement r with
      | Fulfils v => Some v
      | Rejects _ => None
      end
  | None => None
  end.

(** The record of one invocation of every function among [rules], in
    list order. *)
Definition rule_calls (rules : list Val) : list CallRecord :=
  omap (λ rule, match rule with
                | VFun f => Some (Call f [value; apis])
                | _ => None
                end) rules.

(** The world once the rules were called: the same cells, the calls
    recorded. *)
Definition after_calls (rules : list Val) (w : World) : World :=
  mkWorld (refs w) (calls w ++ rule_calls rules).

End Rules.

(** A result that fails the validation: anything but [true]. *)
Definition failing (res : Prim) : Prop := res ≠ PBool true.

#[global] Instance failing_dec (res : Prim) : Decision (failing res).
Proof. unfold failing. apply _. Defined.

(** A settling order in which each of [n] promises settles. *)
Definition settles_all (n : nat) (order : list nat) : Prop :=
  Forall (λ i, i ∈ order) (seq 0 n).

(** One call of each of the listeners [fs], in list order. *)
Definition listener_calls (fs : list nat) (arguments : list Val) : list CallRecord :=
  (λ f, Call f arguments) <$> fs.

(** Number of slots of a [Promise.all] that are still empty. *)
Fixpoint unfilled (values : list (option Prim)) : nat :=
  match values with
  | [] => 0
  | None :: values' => S (unfilled values')
  | Some _ :: values' => unfilled values'
  end.

(** The bookkeeping of [Promise.all] between two reactions: one slot per
    promise, a filled slot holds the value its promise fulfilled with, and
    [remaining] counts the empty slots. *)
Definition all_inv (promises : list Settlement) (values : list (option Prim))
    (remaining : nat) : Prop :=
  length values = length promises ∧
  remaining = unfilled values ∧
  ∀ i r, values !! i = Some (Some r) → promises !! i = Some (Fulfils r).

(** ** Concrete instances, on which the statements are exercised *)

Module Sample.

(** Four rules: [0] resolves to [true], [1] resolves to a message, [2]
    returns the number 5, [3] rejects; any other function throws. *)
Definition impl (f : nat) (arguments : list Val) : Completion :=
  match f with
  | 0%nat => Returns (Promise (Fulfils (PBool true)))
  | 1%nat => Returns (Promise (Fulfils (PStr "too short")))
  | 2%nat => Returns (Plain (PNum 5))
  | 3%nat => Returns (Promise (Rejects (VStr "offline")))
  | _ => Throws (VStr "broken")
  end.

(** A world whose cell [0] holds an earlier message. *)
Definition world : World := mkWorld {[ 0%nat := VStr "required" ]} [].

(** Listeners and an emitter that return nothing. *)
Definition sink (f : nat) (arguments : list Val) : Completion :=
  Returns (Plain PUndefined).

Definition empty : World := mkWorld ∅ [].

(** Options with an emitter (function [7]) and default value 0. *)
Definition emitting (passive : option bool) : UseVModelOptions :=
  {| passive := passive; eventName := None;
     defaultValue := VPrim (PNum 0); emit := Some 7%nat |}.

(** Options without emitter: the listeners of the props bag are used. *)
Definition listening (passive : option bool) : UseVModelOptions :=
  {| passive := passive; eventName := None;
     defaultValue := VPrim (PNum 0); emit := None |}.

Definition model (v : Val) : gmap string Val := {[ "modelValue" := v ]}.

Definition one : Val := VPrim (PNum 1).
Definition two : Val := VPrim (PNum 2).

(** A props bag with two listeners on the update event. *)
Definition listened : gmap string Val :=
  <[ "onUpdate:modelValue" := VArr 0 [VFun 4; VFun 5] ]> (model one).

(** The buffered cell [useVModel] makes in the empty world: cell [0]. *)
Definition cell : VModel :=
  ProxyRef 0 (watchers sink "modelValue" (emitting None) 0).

End Sample.

(** ** pickProps *)

(** The second argument of [pickProps]: one key, or an array of keys. *)
Inductive PropsKey : Type :=
| OneKey (key : string)
| ManyKeys (keys : list string).

(** Its result: the value of the key, or an object with the picked keys. *)
Inductive Picked : Type :=
| PickedValue (v : Val)
| PickedObject (pickedProps : gmap string Val).

(** [array.reduce(f, init)] *)
Definition reduce {A B} (f : B → A → B) (l : list A) (init : B) : B :=
  foldl f init l.

(** [pickProps(props, propsKey)].  [pickedProps[key] = props[key]] sets the
    key also when [props] lacks it, to [undefined]. *)
Definition pickProps (props : gmap string Val) (propsKey : PropsKey) : Picked :=
  match propsKey with
  | ManyKeys keys =>
      PickedObject
        (reduce (λ pickedProps key, <[key := prop props key]> pickedProps) keys ∅)
  | OneKey key => PickedValue (prop props key)
  end.

(** ** createNamespace: the [classes] helper *)

(** An argument of [classes]: a class name ([string], [undefined] or
    [null]), or an array [[condition, truthy, falsy?]]. *)
Inductive ClassEntry : Type :=
| PlainClass (className : Prim)
| CondClass (condition : Val) (truthy : Prim) (falsy : option Prim).

(** [const [condition, truthy, falsy = null] = className]: the default
    stands in for an absent and for an [undefined] third element. *)
Definition falsy_or_null (falsy : option Prim) : Prim :=
  match falsy with
  | None | Some PUndefined => PNull
  | Some c => c
  end.

Definition classes (classes : list ClassEntry) : list Prim :=
  (λ className,
     match className with
     | CondClass condition truthy falsy =>
         let falsy := falsy_or_null falsy in
         if val_truthy condition then truthy else falsy
     | PlainClass c => c
     end) <$> classes.

(** ** useTeleport *)

(** [useTeleport()] creates the cell [disabled] and registers two hooks on
    the component: the framework runs the first at every activation of the
    component, the second at every deactivation. *)
Definition useTeleport : M nat := ref (VPrim (PBool false)).

Inductive Lifecycle : Type :=
| Activated
| Deactivated.

(** The hook that runs at a lifecycle event. *)
Definition teleport_hook (disabled : nat) (ev : Lifecycle) : M unit :=
  match ev with
  | Activated => set_ref disabled (VPrim (PBool false))
  | Deactivated => set_ref disabled (VPrim (PBool true))
  end.

(** The component going through lifecycle events, oldest first. *)
Definition lifecycle (disabled : nat) (evs : list Lifecycle) (w : World) : World :=
  foldl (λ w ev, (teleport_hook disabled ev w).2) w evs.

(** ** mount *)

(** What [mount] does to the framework: the calls, oldest first. *)
Inductive AppCall : Type :=
| CreateApp (app component : nat)
| AppMount (app host : nat)
| AppUnmount (app : nat).

(** The page as far as [mount] touches it: the child nodes of
    [document.body] in document order, the number of elements created so
    far (a new element is a node that is nowhere in the document), the
    number of apps created, and the calls made to the framework.  Mounting
    and unmounting an app works inside its host element and leaves the
    children of [document.body] alone. *)
Record Page : Type := mkPage {
  body : list nat;
  elements : nat;
  apps : nat;
  app_calls : list AppCall
}.

(** [parent.appendChild(node)]: the node becomes the last child; a node
    that is a child already is moved. *)
Definition appendChild (children : list nat) (node : nat) : list nat :=
  filter (λ n, n ≠ node) children ++ [node].

(** [parent.removeChild(node)]: a [NotFoundError] when [node] is not a
    child. *)
Definition removeChild (children : list nat) (node : nat) : option (list nat) :=
  if bool_decide (node ∈ children) then Some (filter (λ n, n ≠ node) children)
  else None.

Definition NotFoundError : Thrown := Raised (VStr "NotFoundError").

(** The [unmount] closure of a mounted instance. *)
Definition unmount (app host : nat) (pg : Page) : Outcome unit * Page :=
  let pg := mkPage (body pg) (elements pg) (apps pg)
              (app_calls pg ++ [AppUnmount app]) in
  match removeChild (body pg) host with
  | Some children => (Done (), mkPage children (elements pg) (apps pg) (app_calls pg))
  | None => (Threw NotFoundError, pg)
  end.

(** What [mount] returns: the instance (here the app it belongs to) and
    the closure [unmount], given by the app and the host it closes over. *)
Record MountInstance : Type := {
  instance : nat;
  unmount_app : nat;
  unmount_host : nat
}.

Definition mount (component : nat) (pg : Page) : MountInstance * Page :=
  let app := apps pg in
  let host := elements pg in
  ({| instance := app; unmount_app := app; unmount_host := host |},
   mkPage (appendChild (body pg) host) (S (elements pg)) (S (apps pg))
     (app_calls pg ++ [CreateApp app component; AppMount app host])).

(** [mountInstance.unmount()] *)
Definition run_unmount (m : MountInstance) (pg : Page) : Outcome unit * Page :=
  unmount (unmount_app m) (unmount_host m) pg.

(** A page whose body holds existing elements only. *)
Definition well_formed (pg : Page) : Prop :=
  Forall (λ n, (n < elements pg)%nat) (body pg).

(** ** Vocabulary for the further properties *)

(** A run of the binding: the actions, oldest first. *)
Definition run_actions (m : VModel) (st : gmap string Val * World)
    (actions : list Action) : gmap string Val * World :=
  foldl (step m) st actions.

(** The calls of an emitter, one per value notified. *)
Definition emit_calls (em : nat) (event : string) (vs : list Val) : list CallRecord :=
  (λ v, Call em [VStr event; v]) <$> vs.

(** The value a call of [f] returns, when it returns. *)
Definition returned_by (impl : nat → list Val → Completion) (arguments : list Val)
    (f : nat) : option Ret :=
  match impl f arguments with
  | Returns r => Some r
  | Throws _ => None
  end.

(** A node that [flatFragment] keeps as it is: neither a comment nor a
    fragment whose children are an array. *)
Definition kept (v : VNode) : Prop :=
  type v ≠ Comment ∧
  (type v = Fragment → ∀ items, children v ≠ ChildrenArray items).

#[global] Instance Lifecycle_eq_dec : EqDecision Lifecycle.
Proof. solve_decision. Defined.

(** * Properties *)

(** ** Class names *)

#[local] Arguments String.append : simpl nomatch.

Lemma prefix_append (p s : string) : String.prefix p (p +:+ s) = true.
Proof.
  induction p as [|c p IH]; simpl; [by destruct s|].
  by destruct (ascii_dec c c).
Qed.

Lemma prefix_nil (s : string) : String.prefix "" s = true.
Proof. by destruct s. Qed.

Lemma append_assoc (a b c : string) : (a +:+ b) +:+ c = a +:+ (b +:+ c).
Proof. induction a as [|x a IH]; simpl; [done|]. by f_equal. Qed.

Lemma replace_head (c : Ascii.ascii) (rep s : string) :
  replace (String c "") rep (String c s) = rep +:+ s.
Proof. simpl. destruct (ascii_dec c c); [|done]. by rewrite prefix_nil. Qed.

Lemma first_char_is_spec (s : string) (c : Ascii.ascii) :
  first_char_is s c = true ↔ ∃ rest, s = String c rest.
Proof.
  unfold first_char_is. rewrite bool_decide_eq_true.
  destruct s as [|x s]; simpl.
  - split; [done|]. by intros [? ?].
  - split; [intros [= ->]; eauto|]. by intros [? [= -> _]].
Qed.

Lemma createBEM_namespace (name : string) (suffix : option string) :
  String.prefix namespace (createBEM name suffix) = true.
Proof.
  unfold createBEM, componentName.
  destruct suffix as [s|]; [|by rewrite prefix_append].
  case_bool_decide; [by rewrite prefix_append|].
  destruct (first_char_is s "$") eqn:Hd.
  - apply first_char_is_spec in Hd as [rest ->].
    rewrite replace_head. apply prefix_append.
  - destruct (startsWith s "--"); rewrite !append_assoc; apply prefix_append.
Qed.

(** C10.  Whatever the component name and the suffix, the class returned
    by [n] starts with the namespace [var]: without suffix, or with the
    empty one, it is [var-<name>]; a suffix that starts with [$] has this
    [$] replaced by [var]; a suffix [--<modifier>] gives
    [var-<name>--<modifier>]; every other suffix gives
    [var-<name>__<suffix>]. *)
Theorem createBEM_classes (name : string) (suffix : option string) :
  String.prefix "var" (createBEM name suffix) = true ∧
  (suffix = None ∨ suffix = Some "" → createBEM name suffix = "var-" +:+ name) ∧
  (∀ rest, suffix = Some ("$" +:+ rest) → createBEM name suffix = "var" +:+ rest) ∧
  (∀ modifier, suffix = Some ("--" +:+ modifier) →
     createBEM name suffix = "var-" +:+ name +:+ "--" +:+ modifier) ∧
  (∀ s, suffix = Some s → s ≠ "" → first_char_is s "$" = false →
     startsWith s "--" = false →
     createBEM name suffix = "var-" +:+ name +:+ "__" +:+ s).
Proof.
  split; [apply createBEM_namespace|].
  split; [by intros [-> | ->]|].
  split.
  { intros rest ->. unfold createBEM. simpl. by rewrite prefix_nil. }
  split.
  - intros modifier ->. unfold createBEM, componentName, namespace. simpl.
    unfold startsWith. by rewrite prefix_nil.
  - intros s -> Hne Hd Hm. unfold createBEM.
    rewrite bool_decide_eq_false_2 by done. rewrite Hd, Hm.
    unfold componentName, namespace. by simpl.
Qed.

Lemma createBEM_classes_witness :
  createBEM "button" (Some "$--box") = "var--box" ∧
  createBEM "button" (Some "--primary") = "var-button--primary" ∧
  createBEM "button" (Some "content") = "var-button__content".
Proof.
  split; [|split].
  - apply (createBEM_classes "button" (Some "$--box")). reflexivity.
  - apply (createBEM_classes "button" (Some "--primary")). reflexivity.
  - apply (createBEM_classes "button" (Some "content"));
      [reflexivity | discriminate | reflexivity | reflexivity].
Defined.

(** ** formatElevation *)

Lemma strict_eq_true (a b : Prim) : strict_eq a b = true ↔ a = b.
Proof. apply bool_decide_eq_true. Qed.

Lemma strict_eq_false (a b : Prim) : strict_eq a b = false ↔ a ≠ b.
Proof. apply bool_decide_eq_false. Qed.

(** C8.  [formatElevation] returns null exactly for the boolean [false].
    For the boolean [true] without default level, or with the default
    level 0, the result is [var-elevation--true]; with a truthy default
    level the level takes the place of [true]; in every other case the
    elevation itself follows the prefix [var-elevation--]. *)
Theorem formatElevation_cases (elevation defaultLevel : Prim) :
  (formatElevation elevation defaultLevel = None ↔ elevation = PBool false) ∧
  (elevation = PBool true →
   defaultLevel = PUndefined ∨ defaultLevel = PNum 0 →
   formatElevation elevation defaultLevel = Some "var-elevation--true") ∧
  (elevation = PBool true → truthy defaultLevel = true →
   formatElevation elevation defaultLevel
   = Some ("var-elevation--" +:+ js_String defaultLevel)) ∧
  (elevation ≠ PBool false →
   elevation ≠ PBool true ∨ truthy defaultLevel = false →
   formatElevation elevation defaultLevel
   = Some ("var-elevation--" +:+ js_String elevation)).
Proof.
  unfold formatElevation. repeat split.
  - destruct (strict_eq elevation (PBool false)) eqn:E; [|done].
    intros _. by apply strict_eq_true.
  - by intros ->.
  - by intros -> [-> | ->].
  - intros -> Ht. simpl. by rewrite Ht.
  - intros Hf Hc. apply strict_eq_false in Hf. rewrite Hf.
    destruct Hc as [Hc | Hc].
    + apply strict_eq_false in Hc. by rewrite Hc.
    + by rewrite Hc, andb_false_r.
Qed.

Lemma formatElevation_cases_witness :
  formatElevation (PBool true) (PNum 0) = Some "var-elevation--true" ∧
  formatElevation (PBool true) (PNum 3) = Some "var-elevation--3" ∧
  formatElevation (PNum 12) PUndefined = Some "var-elevation--12".
Proof.
  split; [|split].
  - destruct (formatElevation_cases (PBool true) (PNum 0)) as (_ & H & _).
    apply H; [reflexivity | by right].
  - destruct (formatElevation_cases (PBool true) (PNum 3)) as (_ & _ & H & _).
    apply H; reflexivity.
  - destruct (formatElevation_cases (PNum 12) PUndefined) as (_ & _ & _ & H).
    apply H; [discriminate | by left].
Defined.

(** ** flatFragment *)

Lemma forEach_push {A} (items result : list A) :
  forEach push items result = result ++ items.
Proof.
  revert result. induction items as [|x items IH]; intros result; simpl.
  - by rewrite app_nil_r.
  - unfold forEach in *. simpl. rewrite IH. unfold push. by rewrite <- app_assoc.
Qed.

(** One turn of the loop appends what the node contributes. *)
Lemma flatFragment_turn (vNode : VNode) (result : list VNode) :
  (if bool_decide (type vNode = Comment) then result
   else match bool_decide (type vNode = Fragment), children vNode with
        | true, ChildrenArray items => forEach push items result
        | _, _ => push result vNode
        end) = result ++ flat_one vNode.
Proof.
  unfold flat_one. destruct vNode as [t c]; simpl.
  destruct t; simpl; try by rewrite ?app_nil_r.
  destruct c; simpl; try done. apply forEach_push.
Qed.

Lemma flatFragment_loop (vNodes result : list VNode) :
  forEach
    (λ result vNode,
       if bool_decide (type vNode = Comment) then result
       else match bool_decide (type vNode = Fragment), children vNode with
            | true, ChildrenArray items => forEach push items result
            | _, _ => push result vNode
            end) vNodes result
  = result ++ flat_described vNodes.
Proof.
  revert result. induction vNodes as [|v vNodes IH]; intros result.
  - simpl. by rewrite app_nil_r.
  - unfold forEach in *. simpl. rewrite flatFragment_turn, IH.
    unfold flat_described. simpl. by rewrite <- app_assoc.
Qed.

Lemma flatFragment_described (vNodes : list VNode) :
  flatFragment vNodes = flat_described vNodes.
Proof. apply (flatFragment_loop vNodes []). Qed.

Lemma flatFragment_app (before after : list VNode) (v : VNode) :
  flatFragment (before ++ v :: after)
  = flatFragment before ++ flat_one v ++ flatFragment after.
Proof.
  rewrite !flatFragment_described. unfold flat_described.
  by rewrite fmap_app, fmap_cons, join_app.
Qed.

(** C9.  [flatFragment] is the described flattening, and node by node:
    a node of type [Comment] leaves nothing; a node of type [Fragment]
    whose children are an array leaves these children where it stood, as
    they are, whatever their own types; any other node stays.  The order
    of the list is kept. *)
Theorem flatFragment_one_level (before after : list VNode) (v : VNode) :
  flatFragment (before ++ v :: after) = flat_described (before ++ v :: after) ∧
  flatFragment [] = [] ∧
  (type v = Comment →
   flatFragment (before ++ v :: after) = flatFragment before ++ flatFragment after) ∧
  (∀ items, type v = Fragment → children v = ChildrenArray items →
   flatFragment (before ++ v :: after)
   = flatFragment before ++ items ++ flatFragment after) ∧
  (type v ≠ Comment →
   (type v = Fragment → ∀ items, children v ≠ ChildrenArray items) →
   flatFragment (before ++ v :: after)
   = flatFragment before ++ v :: flatFragment after).
Proof.
  split; [apply flatFragment_described|]. split; [done|].
  rewrite flatFragment_app. unfold flat_one. destruct v as [t c]; simpl.
  split; [by intros ->|]. split.
  - by intros items -> ->.
  - intros Hc Hf. destruct t; try done.
    destruct c; try done. by destruct (Hf eq_refl items).
Qed.

Lemma flatFragment_one_level_witness :
  flatFragment
    ([mkVNode (Element "li") ChildrenNull]
     ++ mkVNode Fragment
          (ChildrenArray [mkVNode Comment ChildrenNull;
                          mkVNode Fragment (ChildrenArray [])])
     :: [mkVNode Comment ChildrenNull; mkVNode Text (ChildrenText "a")])
  = [mkVNode (Element "li") ChildrenNull]
    ++ [mkVNode Comment ChildrenNull; mkVNode Fragment (ChildrenArray [])]
    ++ [mkVNode Text (ChildrenText "a")].
Proof.
  destruct (flatFragment_one_level
              [mkVNode (Element "li") ChildrenNull]
              [mkVNode Comment ChildrenNull; mkVNode Text (ChildrenText "a")]
              (mkVNode Fragment
                 (ChildrenArray [mkVNode Comment ChildrenNull;
                                 mkVNode Fragment (ChildrenArray [])])))
    as (_ & _ & _ & H & _).
  apply (H _ eq_refl eq_refl).
Defined.

(** ** Promise.all *)

Lemma unfilled_replicate (n : nat) : unfilled (replicate n None) = n.
Proof. induction n; simpl; congruence. Qed.

Lemma unfilled_insert (values : list (option Prim)) (i : nat) (r : Prim) :
  values !! i = Some None →
  unfilled (<[i := Some r]> values) = pred (unfilled values).
Proof.
  revert i. induction values as [|o values IH]; intros [|i] H;
    simplify_eq/=; try done.
  destruct o; simpl; [by apply IH|].
  rewrite (IH i H). clear IH.
  revert i H. induction values as [|[?|] values IH]; intros [|i] H;
    simplify_eq/=; eauto.
Qed.

Lemma unfilled_pos (values : list (option Prim)) (i : nat) :
  values !! i = Some None → (0 < unfilled values)%nat.
Proof.
  revert i. induction values as [|o values IH]; intros [|i] H;
    simplify_eq/=; try lia.
  destruct o; [eauto|lia].
Qed.

Lemma unfilled_slot (values : list (option Prim)) :
  (0 < unfilled values)%nat → ∃ i, values !! i = Some None.
Proof.
  induction values as [|[r|] values IH]; simpl; intros H;
    [lia| |by exists 0%nat].
  destruct (IH H) as [i Hi]. by exists (S i).
Qed.

Section PromiseAll.

Variable promises : list Settlement.

Lemma all_inv_init :
  all_inv promises (replicate (length promises) None) (length promises).
Proof.
  split; [by rewrite length_replicate|].
  split; [by rewrite unfilled_replicate|].
  intros i r H. by apply lookup_replicate in H as [? _].
Qed.

Lemma all_inv_fill (values : list (option Prim)) (remaining i : nat) (r : Prim) :
  all_inv promises values remaining →
  promises !! i = Some (Fulfils r) →
  values !! i = Some None →
  all_inv promises (<[i := Some r]> values) (pred remaining).
Proof.
  intros (Hlen & Hrem & Hval) Hp Hv. split; [by rewrite length_insert|].
  split; [by rewrite unfilled_insert, Hrem|].
  intros j r' Hj. destruct (decide (i = j)) as [<-|Hne].
  - rewrite list_lookup_insert_eq in Hj by (by eapply lookup_lt_Some).
    congruence.
  - rewrite list_lookup_insert_ne in Hj by done. eauto.
Qed.

Lemma all_inv_slot (values : list (option Prim)) (remaining i : nat)
    (s : Settlement) :
  all_inv promises values remaining →
  promises !! i = Some s →
  is_Some (values !! i).
Proof.
  intros (Hlen & _) Hp. apply lookup_lt_is_Some. rewrite Hlen.
  by eapply lookup_lt_Some.
Qed.

(** When nothing remains, the slots are the fulfilment values, index by
    index. *)
Lemma all_inv_complete (values : list (option Prim)) (results : list Prim) :
  all_inv promises values 0 →
  promises = Fulfils <$> results →
  default PUndefined <$> values = results.
Proof.
  intros (Hlen & Hrem & Hval) ->. rewrite length_fmap in Hlen.
  apply list_eq. intros i. rewrite list_lookup_fmap.
  destruct (values !! i) as [[r|]|] eqn:Hi; simpl.
  - apply Hval in Hi. rewrite list_lookup_fmap in Hi.
    destruct (results !! i); by simplify_eq/=.
  - apply unfilled_pos in Hi. lia.
  - apply lookup_ge_None in Hi. symmetry. apply lookup_ge_None. lia.
Qed.

(** Every promise fulfils and every empty slot is still to come in the
    order: the outcome is the list of values in index order. *)
Lemma all_reactions_fulfilled (results : list Prim) (order : list nat) :
  promises = Fulfils <$> results →
  ∀ values remaining,
    all_inv promises values remaining →
    (0 < remaining)%nat →
    (∀ i, values !! i = Some None → i ∈ order) →
    all_reactions promises order values remaining = Fulfilled results.
Proof.
  intros Hps.
  induction order as [|i order IH]; intros values remaining Hinv Hpos Hsched.
  - destruct Hinv as (_ & -> & _).
    apply unfilled_slot in Hpos as [i Hi]. apply Hsched in Hi.
    by apply elem_of_nil in Hi.
  - simpl. destruct (promises !! i) as [s|] eqn:Hp.
    + assert (∃ r, s = Fulfils r) as [r ->].
      { rewrite Hps, list_lookup_fmap in Hp.
        destruct (results !! i); simplify_eq/=; eauto. }
      destruct (all_inv_slot _ _ _ _ Hinv Hp) as [[r'|] Hv]; rewrite Hv.
      * apply IH; [done..|]. intros j Hj.
        specialize (Hsched j Hj).
        apply elem_of_cons in Hsched as [->|]; [congruence|done].
      * pose proof (all_inv_fill _ _ _ _ Hinv Hp Hv) as Hinv'.
        case_bool_decide as Hz.
        -- rewrite Hz in Hinv'. f_equal. by apply all_inv_complete.
        -- apply IH; [done|lia|]. intros j Hj.
           destruct (decide (i = j)) as [<-|Hne].
           { rewrite list_lookup_insert_eq in Hj; [done|].
             by eapply lookup_lt_Some. }
           rewrite list_lookup_insert_ne in Hj by done.
           specialize (Hsched j Hj).
           by apply elem_of_cons in Hsched as [->|].
    + apply IH; [done..|]. intros j Hj.
      specialize (Hsched j Hj). apply elem_of_cons in Hsched as [->|]; [|done].
      destruct Hinv as (Hlen & _). apply lookup_ge_None in Hp.
      apply lookup_lt_Some in Hj. lia.
Qed.

(** A rejection that no other rejection precedes rejects the whole, with
    its own reason, whatever settles later. *)
Lemma all_reactions_rejected (first later : list nat) (i : nat) (e : Val) :
  promises !! i = Some (Rejects e) →
  Forall (λ j, ∀ e', promises !! j ≠ Some (Rejects e')) first →
  ∀ values remaining,
    all_inv promises values remaining →
    all_reactions promises (first ++ i :: later) values remaining = Rejected e.
Proof.
  intros Hi.
  induction first as [|j first IH]; intros Hfirst values remaining Hinv; simpl.
  - by rewrite Hi.
  - apply Forall_cons in Hfirst as [Hj Hfirst].
    destruct (promises !! j) as [[r|e']|] eqn:Hp;
      [|by destruct (Hj e')|by apply IH].
    destruct (all_inv_slot _ _ _ _ Hinv Hp) as [[r'|] Hv]; rewrite Hv;
      [by apply IH|].
    pose proof (all_inv_fill _ _ _ _ Hinv Hp Hv) as Hinv'.
    rewrite bool_decide_eq_false_2; [by apply IH|].
    destruct (all_inv_slot _ _ _ _ Hinv' Hi) as [[r'|] Hv'].
    + destruct Hinv' as (_ & _ & Hval). apply Hval in Hv'. congruence.
    + apply unfilled_pos in Hv'. destruct Hinv' as (_ & Hrem & _). lia.
Qed.

(** Among the scheduled promises, one that rejects has a first. *)
Lemma first_rejection (order : list nat) (i : nat) (e : Val) :
  i ∈ order →
  promises !! i = Some (Rejects e) →
  ∃ first j later e',
    order = first ++ j :: later ∧
    promises !! j = Some (Rejects e') ∧
    Forall (λ k, ∀ e'', promises !! k ≠ Some (Rejects e'')) first.
Proof.
  intros Hin Hi. induction order as [|k order IH]; [by apply elem_of_nil in Hin|].
  destruct (promises !! k) as [[r|e']|] eqn:Hk.
  - apply elem_of_cons in Hin as [->|Hin]; [congruence|].
    destruct (IH Hin) as (first & j & later & e' & -> & Hj & Hfirst).
    exists (k :: first), j, later, e'. split; [done|]. split; [done|].
    constructor; [|done]. intros e''. by rewrite Hk.
  - by exists [], k, order, e'.
  - apply elem_of_cons in Hin as [->|Hin]; [congruence|].
    destruct (IH Hin) as (first & j & later & e' & -> & Hj & Hfirst).
    exists (k :: first), j, later, e'. split; [done|]. split; [done|].
    constructor; [|done]. intros e''. by rewrite Hk.
Qed.

End PromiseAll.

Lemma settles_all_spec (n : nat) (order : list nat) (i : nat) :
  settles_all n order → (i < n)%nat → i ∈ order.
Proof.
  unfold settles_all. rewrite Forall_forall. intros H Hi. apply H.
  apply elem_of_seq. lia.
Qed.

Lemma Promise_all_fulfilled (results : list Prim) (order : list nat) :
  settles_all (length results) order →
  Promise_all (Fulfils <$> results) order = Fulfilled results.
Proof.
  intros Hsched. unfold Promise_all.
  destruct (Fulfils <$> results) as [|p ps] eqn:E; [by destruct results|].
  rewrite <- E.
  apply all_reactions_fulfilled; [done|apply all_inv_init| |].
  - rewrite E. simpl. lia.
  - intros i Hi. apply lookup_replicate in Hi as [_ Hi].
    rewrite length_fmap in Hi. by eapply settles_all_spec.
Qed.

Lemma Promise_all_rejected (promises : list Settlement) (first later : list nat)
    (i : nat) (e : Val) :
  promises !! i = Some (Rejects e) →
  Forall (λ j, ∀ e', promises !! j ≠ Some (Rejects e')) first →
  Promise_all promises (first ++ i :: later) = Rejected e.
Proof.
  intros Hi Hfirst. unfold Promise_all.
  destruct promises eqn:E; [done|]. rewrite <- E in *.
  apply all_reactions_rejected; [done..|apply all_inv_init].
Qed.

(** ** Calls *)

Lemma read_write_ref (cell : nat) (v : Val) (w : World) :
  read_ref cell (write_ref cell v w) = v.
Proof. unfold read_ref, write_ref. simpl. by rewrite lookup_insert_eq. Qed.

Lemma read_ref_refs (cell : nat) (w w' : World) :
  refs w' = refs w → read_ref cell w' = read_ref cell w.
Proof. unfold read_ref. by intros ->. Qed.

Section CallFacts.

Variable impl : nat → list Val → Completion.

(** A call writes no cell, and is recorded when the callee is a
    function, whether it returns or throws. *)
Lemma invoke_world (fn : Val) (arguments : list Val) (w : World) :
  (invoke impl fn arguments w).2
  = match fn with
    | VFun f => record_call f arguments w
    | _ => w
    end.
Proof.
  destruct fn as [p|f|a l]; simpl; try done.
  by destruct (impl f arguments).
Qed.

Lemma invoke_refs (fn : Val) (arguments : list Val) (w : World) :
  refs (invoke impl fn arguments w).2 = refs w.
Proof. rewrite invoke_world. by destruct fn. Qed.

Lemma map_invoke_refs (fns arguments : list Val) (w : World) :
  refs (map_ (λ f, invoke impl f arguments) fns w).2 = refs w.
Proof.
  revert w. induction fns as [|fn fns IH]; intros w; [done|].
  cbn [map_]. unfold bind at 1.
  pose proof (invoke_refs fn arguments w) as Hw1.
  destruct (invoke impl fn arguments w) as [[r|e|] w1]; simpl in Hw1; try done.
  unfold bind. specialize (IH w1).
  destruct (map_ _ fns w1) as [[?| |] w2]; simpl in *; congruence.
Qed.

Lemma call_refs (fn : Val) (arguments : list Val) (w : World) :
  refs (call impl fn arguments w).2 = refs w.
Proof.
  unfold call. destruct fn as [p|f|a fs].
  - destruct (val_truthy (VPrim p)); [|done]. unfold bind.
    pose proof (invoke_refs (VPrim p) arguments w).
    by destruct (invoke impl (VPrim p) arguments w) as [[?| |] ?].
  - cbn [val_truthy]. unfold bind.
    pose proof (invoke_refs (VFun f) arguments w).
    by destruct (invoke impl (VFun f) arguments w) as [[?| |] ?].
  - unfold bind. pose proof (map_invoke_refs fs arguments w).
    by destruct (map_ _ fs w) as [[?| |] ?].
Qed.

(** Listeners that return are all called, in list order. *)
Lemma map_invoke_listeners (fs : list nat) (arguments : list Val) (w : World) :
  Forall (λ f, ∃ r, impl f arguments = Returns r) fs →
  ∃ rs,
    map_ (λ f, invoke impl f arguments) (VFun <$> fs) w
    = (Done rs, mkWorld (refs w) (calls w ++ listener_calls fs arguments)).
Proof.
  intros H. revert w. induction H as [|f fs [r Hr] _ IH]; intros w.
  - exists []. destruct w. simpl. unfold ret. by rewrite app_nil_r.
  - destruct (IH (record_call f arguments w)) as [rs Hrs]. exists (r :: rs).
    rewrite fmap_cons. cbn [map_]. unfold bind at 1. cbn [invoke]. rewrite Hr.
    unfold bind at 1. rewrite Hrs. cbn [ret record_call refs calls].
    unfold listener_calls. by rewrite fmap_cons, <- app_assoc.
Qed.

End CallFacts.

(** ** The validation runner *)

Section ValidationFacts.

Variable impl : nat → list Val → Completion.
Variable order : list nat.
Variable errorMessage : nat.
Variables value apis : Val.

Lemma invoke_returns (rule : Val) (r : Ret) (w : World) :
  rule_return impl value apis rule = Some r →
  invoke impl rule [value; apis] w = (Done r, after_calls value apis [rule] w).
Proof.
  unfold rule_return, after_calls.
  destruct rule as [p|f|a l]; simpl; try done.
  destruct (impl f [value; apis]); intros ?; by simplify_eq.
Qed.

Lemma invoke_throws (rule : Val) (e : Thrown) (w : World) :
  rule_throw impl value apis rule = Some e →
  invoke impl rule [value; apis] w = (Threw e, after_calls value apis [rule] w).
Proof.
  unfold rule_throw, after_calls. destruct w as [rf cs].
  destruct rule as [p|f|a l]; simpl.
  - intros [= <-]. unfold throw. by rewrite app_nil_r.
  - destruct (impl f [value; apis]); intros ?; by simplify_eq.
  - intros [= <-]. unfold throw. by rewrite app_nil_r.
Qed.

Lemma rule_calls_app (l1 l2 : list Val) :
  rule_calls value apis (l1 ++ l2)
  = rule_calls value apis l1 ++ rule_calls value apis l2.
Proof. unfold rule_calls. apply omap_app. Qed.

Lemma after_calls_cons (rule : Val) (rules : list Val) (w : World) :
  after_calls value apis rules (after_calls value apis [rule] w)
  = after_calls value apis (rule :: rules) w.
Proof.
  unfold after_calls. cbn [refs calls].
  by rewrite <- app_assoc, <- rule_calls_app.
Qed.

(** Rules that return are all called, in list order. *)
Lemma map_invoke_returns (rules : list Val) (returned : list Ret) (w : World) :
  mapM (rule_return impl value apis) rules = Some returned →
  map_ (λ rule, invoke impl rule [value; apis]) rules w
  = (Done returned, after_calls value apis rules w).
Proof.
  rewrite mapM_Some. intros H. revert w.
  induction H as [|rule r rules returned Hr _ IH]; intros w.
  - destruct w. unfold after_calls. simpl. unfold ret. by rewrite app_nil_r.
  - cbn [map_]. unfold bind at 1. rewrite (invoke_returns _ _ _ Hr).
    unfold bind at 1. rewrite IH. unfold ret. by rewrite after_calls_cons.
Qed.

(** A rule that throws ends the mapping: the rules after it are not
    called. *)
Lemma map_invoke_throws (before : list Val) (rule : Val) (after : list Val)
    (returned : list Ret) (e : Thrown) (w : World) :
  mapM (rule_return impl value apis) before = Some returned →
  rule_throw impl value apis rule = Some e →
  map_ (λ rule, invoke impl rule [value; apis]) (before ++ rule :: after) w
  = (Threw e, after_calls value apis (before ++ [rule]) w).
Proof.
  rewrite mapM_Some. intros H He. revert w.
  induction H as [|rule' r rules returned Hr _ IH]; intros w.
  - simpl. unfold bind at 1. by rewrite (invoke_throws _ _ _ He).
  - rewrite <- !app_comm_cons. cbn [map_]. unfold bind at 1.
    rewrite (invoke_returns _ _ _ Hr).
    unfold bind at 1. by rewrite IH, after_calls_cons.
Qed.

Lemma rule_return_or_throw (rule : Val) :
  is_Some (rule_return impl value apis rule) ∨
  is_Some (rule_throw impl value apis rule).
Proof.
  unfold rule_return, rule_throw. destruct rule as [p|f|a l]; eauto.
  destruct (impl f [value; apis]); eauto.
Qed.

(** Among rules of which one throws, there is a first one to throw. *)
Lemma first_throw (rules : list Val) (rule : Val) :
  rule ∈ rules →
  is_Some (rule_throw impl value apis rule) →
  ∃ before thrower after returned e,
    rules = before ++ thrower :: after ∧
    mapM (rule_return impl value apis) before = Some returned ∧
    rule_throw impl value apis thrower = Some e.
Proof.
  intros Hin Ht. induction rules as [|x rules IH]; [by apply elem_of_nil in Hin|].
  destruct (rule_throw impl value apis x) as [e|] eqn:Hx.
  - by exists [], x, rules, [], e.
  - destruct (rule_return_or_throw x) as [[r Hr]|[e He]]; [|congruence].
    apply elem_of_cons in Hin as [->|Hin]; [rewrite Hx in Ht; by destruct Ht|].
    destruct (IH Hin) as (before & thrower & after & returned & e & -> & Hb & He).
    exists (x :: before), thrower, after, (r :: returned), e.
    split; [done|]. split; [|done].
    apply mapM_Some. constructor; [done|by apply mapM_Some].
Qed.

(** Rules that all have an awaited result all return, and what they
    return settles as fulfilled with those results. *)
Lemma rule_results_returned (rules : list Val) (results : list Prim) :
  mapM (rule_result impl value apis) rules = Some results →
  ∃ returned,
    mapM (rule_return impl value apis) rules = Some returned ∧
    settlement <$> returned = Fulfils <$> results.
Proof.
  rewrite mapM_Some.
  induction 1 as [|rule res rules results Hr _ (returned & IH1 & IH2)].
  - by exists [].
  - unfold rule_result in Hr.
    destruct (rule_return impl value apis rule) as [r|] eqn:Er; [|done].
    destruct (settlement r) eqn:Es; [|done]. simplify_eq.
    exists (r :: returned). split.
    + apply mapM_Some. constructor; [done|by apply mapM_Some].
    + by rewrite !fmap_cons, Es, IH2.
Qed.

(** The scan of the results stops at the first failing one, whose string
    form it stores. *)
Lemma some_failing (results : list Prim) (w : World) :
  some (λ res,
          if negb (strict_eq res (PBool true)) then
            do! set_ref errorMessage (VStr (js_String res)) in ret true
          else ret false) results w
  = match list_find failing results with
    | Some (_, res) =>
        (Done true, write_ref errorMessage (VStr (js_String res)) w)
    | None => (Done false, w)
    end.
Proof.
  induction results as [|res results IH]; [done|].
  cbn [some list_find]. unfold bind at 1.
  destruct (strict_eq res (PBool true)) eqn:E.
  - apply bool_decide_eq_true in E. rewrite decide_False by (by intros []).
    cbn [negb ret]. rewrite IH.
    by destruct (list_find failing results) as [[??]|].
  - apply bool_decide_eq_false in E. by rewrite decide_True.
Qed.

Lemma list_find_first (passed rest : list Prim) (res : Prim) :
  Forall (λ r, r = PBool true) passed →
  failing res →
  list_find failing (passed ++ res :: rest) = Some (length passed, res).
Proof.
  intros Hp Hf. induction Hp as [|r passed -> _ IH]; simpl.
  - by rewrite decide_True.
  - by rewrite IH.
Qed.

Lemma list_find_all_pass (results : list Prim) :
  Forall (λ r, r = PBool true) results → list_find failing results = None.
Proof. induction 1 as [|r results -> _ IH]; simpl; [done|]. by rewrite IH. Qed.

Lemma includes_spec (validateTrigger : list Prim) (trigger : Prim) :
  includes validateTrigger trigger = true ↔ trigger ∈ validateTrigger.
Proof.
  unfold includes. rewrite existsb_exists. setoid_rewrite <- list_elem_of_In.
  split.
  - intros (t & Ht & E). apply bool_decide_eq_true in E. by subst.
  - intros Ht. exists trigger. split; [done|]. by apply bool_decide_eq_true.
Qed.

(** A run in which every rule has an awaited result and every promise
    settles. *)
Lemma validate_run (a : nat) (rules : list Val) (results : list Prim)
    (w : World) :
  rules ≠ [] →
  mapM (rule_result impl value apis) rules = Some results →
  settles_all (length rules) order →
  validate impl order errorMessage (VArr a rules) value apis w
  = match list_find failing results with
    | Some (_, res) =>
        (Done false,
         write_ref errorMessage (VStr (js_String res))
           (after_calls value apis rules w))
    | None => (Done true, after_calls value apis rules w)
    end.
Proof.
  intros Hne Hres Hord. unfold validate.
  rewrite bool_decide_eq_false_2 by (by destruct rules).
  destruct (rule_results_returned _ _ Hres) as (returned & Hret & Hset).
  unfold bind at 1. rewrite (map_invoke_returns _ _ _ Hret).
  rewrite Hset, Promise_all_fulfilled
    by (by rewrite <- (length_mapM _ _ _ Hres)).
  unfold bind at 1. cbn [await ret]. unfold bind at 1. rewrite some_failing.
  by destruct (list_find failing results) as [[??]|].
Qed.

(** A run in which a rule throws. *)
Lemma validate_throws (a : nat) (before : list Val) (rule : Val)
    (after : list Val) (returned : list Ret) (e : Thrown) (w : World) :
  mapM (rule_return impl value apis) before = Some returned →
  rule_throw impl value apis rule = Some e →
  validate impl order errorMessage (VArr a (before ++ rule :: after)) value apis w
  = (Threw e, after_calls value apis (before ++ [rule]) w).
Proof.
  intros Hret He. unfold validate.
  rewrite bool_decide_eq_false_2 by (by destruct before).
  unfold bind at 1. by rewrite (map_invoke_throws _ _ _ _ _ _ Hret He).
Qed.

(** A run in which the rules return and a promise rejects before any
    other does. *)
Lemma validate_rejects (a : nat) (rules : list Val) (returned : list Ret)
    (first later : list nat) (i : nat) (e : Val) (w : World) :
  mapM (rule_return impl value apis) rules = Some returned →
  order = first ++ i :: later →
  (settlement <$> returned) !! i = Some (Rejects e) →
  Forall (λ j, ∀ e', (settlement <$> returned) !! j ≠ Some (Rejects e')) first →
  validate impl order errorMessage (VArr a rules) value apis w
  = (Threw (Raised e), after_calls value apis rules w).
Proof.
  intros Hret Hord Hi Hfirst. unfold validate.
  assert (rules ≠ []) as Hne.
  { intros ->. apply length_mapM in Hret. by destruct returned. }
  rewrite bool_decide_eq_false_2 by (by destruct rules).
  unfold bind at 1. rewrite (map_invoke_returns _ _ _ Hret).
  rewrite Hord, (Promise_all_rejected _ _ _ _ _ Hi Hfirst).
  by unfold bind at 1.
Qed.

(** Unless a run resolves to [false], it leaves every cell as it was. *)
Lemma validate_frame (rules : Val) (w : World) (o : Outcome bool) (w' : World) :
  validate impl order errorMessage rules value apis w = (o, w') →
  o ≠ Done false →
  refs w' = refs w.
Proof.
  unfold validate.
  destruct rules as [p|f|a rules]; try (by intros [= <- <-] _).
  case_bool_decide; [by intros [= <- <-] _|].
  unfold bind at 1.
  pose proof (map_invoke_refs impl rules [value; apis] w) as Hrefs.
  destruct (map_ _ rules w) as [[returned|e|] w1]; simpl in Hrefs;
    try (by intros [= <- <-] _).
  unfold bind at 1.
  destruct (Promise_all (settlement <$> returned) order) as [resArr|e|];
    cbn [await ret throw]; try (by intros [= <- <-] _).
  unfold bind at 1. rewrite some_failing.
  destruct (list_find failing resArr) as [[??]|]; cbn [negb ret].
  - by intros [= <- <-] ?.
  - by intros [= <- <-] _.
Qed.

Lemma failing_results_nonempty (rules : list Val)
    (passed : list Prim) (res : Prim) (rest : list Prim) :
  mapM (rule_result impl value apis) rules = Some (passed ++ res :: rest) →
  rules ≠ [].
Proof.
  intros Hres ->. apply length_mapM in Hres.
  rewrite length_app in Hres. simpl in Hres. lia.
Qed.

(** C1.  When the rules all have an awaited result and one of the
    results is not [true], [validate] resolves to [false] and leaves in
    [errorMessage] the string form of the first such result in the order
    of the rule list; this for every order in which the promises of the
    rules settle.  Each rule was called once, in list order. *)
Theorem validate_first_failure (a : nat) (rules : list Val)
    (results passed : list Prim) (res : Prim) (rest : list Prim) (w : World) :
  mapM (rule_result impl value apis) rules = Some results →
  settles_all (length rules) order →
  results = passed ++ res :: rest →
  Forall (λ r, r = PBool true) passed →
  res ≠ PBool true →
  ∃ w',
    validate impl order errorMessage (VArr a rules) value apis w
    = (Done false, w') ∧
    read_ref errorMessage w' = VStr (js_String res) ∧
    calls w' = calls w ++ rule_calls value apis rules.
Proof.
  intros Hres Hord -> Hp Hf.
  exists (write_ref errorMessage (VStr (js_String res))
            (after_calls value apis rules w)).
  rewrite (validate_run a rules (passed ++ res :: rest) w);
    [|by eapply failing_results_nonempty|done..].
  rewrite list_find_first by done.
  split; [done|]. split; [apply read_write_ref|done].
Qed.

(** C3.  A call of [validate] that resolves to [true] writes no cell, so
    [errorMessage] is what it was: this is the case when [rules] is not
    an array, when it is the empty array, and when every rule has the
    awaited result [true]. *)
Theorem validate_true_keeps_errorMessage (rules : Val) (w : World) :
  ((∀ a rs, rules ≠ VArr a rs) →
   validate impl order errorMessage rules value apis w = (Done true, w)) ∧
  (∀ a, rules = VArr a [] →
   validate impl order errorMessage rules value apis w = (Done true, w)) ∧
  (∀ a rs (results : list Prim),
     rules = VArr a rs → rs ≠ [] →
     mapM (rule_result impl value apis) rs = Some results →
     settles_all (length rs) order →
     Forall (λ r, r = PBool true) results →
     ∃ w',
       validate impl order errorMessage rules value apis w = (Done true, w') ∧
       refs w' = refs w) ∧
  (∀ w',
     validate impl order errorMessage rules value apis w = (Done true, w') →
     refs w' = refs w ∧ read_ref errorMessage w' = read_ref errorMessage w).
Proof.
  split.
  { intros Hna. destruct rules as [p|f|a rs]; try done. by destruct (Hna a rs). }
  split; [by intros a ->|].
  split.
  { intros a rs results -> Hne Hres Hord Hall. exists (after_calls value apis rs w).
    rewrite (validate_run a rs results w) by done.
    by rewrite list_find_all_pass. }
  intros w' Hv. apply validate_frame in Hv; [|done].
  split; [done|]. by apply read_ref_refs.
Qed.

(** C4.  [validateWithTrigger] does nothing at all, calling no rule and
    writing no cell, when [trigger] is not in [validateTrigger].  When
    it is, [validate] runs, and [errorMessage] is set to the empty string
    exactly when that run resolves to [true]; after a run that finds a
    failing result, [errorMessage] is the string form of that result. *)
Theorem validateWithTrigger_cases (validateTrigger : list Prim) (trigger : Prim)
    (rules : Val) (w : World) :
  (trigger ∉ validateTrigger →
   validateWithTrigger impl order errorMessage validateTrigger trigger
     rules value apis w
   = (Done (), w)) ∧
  (trigger ∈ validateTrigger →
   ∀ o w',
     validate impl order errorMessage rules value apis w = (o, w') →
     validateWithTrigger impl order errorMessage validateTrigger trigger
       rules value apis w
     = match o with
       | Done true => (Done (), write_ref errorMessage (VStr "") w')
       | Done false => (Done (), w')
       | Threw e => (Threw e, w')
       | Pending => (Pending, w')
       end) ∧
  (trigger ∈ validateTrigger →
   ∀ a rs (results passed : list Prim) res rest,
     rules = VArr a rs →
     mapM (rule_result impl value apis) rs = Some results →
     settles_all (length rs) order →
     results = passed ++ res :: rest →
     Forall (λ r, r = PBool true) passed →
     res ≠ PBool true →
     ∃ w',
       validateWithTrigger impl order errorMessage validateTrigger trigger
         rules value apis w
       = (Done (), w') ∧
       read_ref errorMessage w' = VStr (js_String res)).
Proof.
  unfold validateWithTrigger. split.
  { intros Hn. destruct (includes validateTrigger trigger) eqn:E; [|done].
    by apply includes_spec in E. }
  split.
  { intros Hin o w' Hv. apply includes_spec in Hin. rewrite Hin.
    unfold bind. rewrite Hv. by destruct o as [[|]| |]. }
  intros Hin a rs results passed res rest -> Hres Hord -> Hp Hf.
  apply includes_spec in Hin. rewrite Hin.
  exists (write_ref errorMessage (VStr (js_String res))
            (after_calls value apis rs w)).
  unfold bind. rewrite (validate_run a rs (passed ++ res :: rest) w);
    [|by eapply failing_results_nonempty|done..].
  rewrite list_find_first by done. split; [done|apply read_write_ref].
Qed.

(** C7.  A rule that throws, or whose promise rejects, makes [validate]
    fail with that exception: with what the first throwing rule threw,
    else with the reason of the first promise to reject, without waiting
    for the others.  Nothing is caught or retried, no cell is written by
    such a run, and [validateWithTrigger] fails the same way. *)
Theorem validate_rule_failure (a : nat) (rules : list Val) (w : World) :
  (∀ before rule after (returned : list Ret) e,
     rules = before ++ rule :: after →
     mapM (rule_return impl value apis) before = Some returned →
     rule_throw impl value apis rule = Some e →
     validate impl order errorMessage (VArr a rules) value apis w
     = (Threw e, after_calls value apis (before ++ [rule]) w)) ∧
  (∀ (returned : list Ret) first i later e,
     mapM (rule_return impl value apis) rules = Some returned →
     order = first ++ i :: later →
     (settlement <$> returned) !! i = Some (Rejects e) →
     Forall (λ j, ∀ e', (settlement <$> returned) !! j ≠ Some (Rejects e'))
       first →
     validate impl order errorMessage (VArr a rules) value apis w
     = (Threw (Raised e), after_calls value apis rules w)) ∧
  (∀ rule,
     rule ∈ rules → is_Some (rule_throw impl value apis rule) →
     ∃ e w',
       validate impl order errorMessage (VArr a rules) value apis w
       = (Threw e, w')) ∧
  (∀ (returned : list Ret) i e,
     mapM (rule_return impl value apis) rules = Some returned →
     (settlement <$> returned) !! i = Some (Rejects e) →
     i ∈ order →
     ∃ e' w',
       validate impl order errorMessage (VArr a rules) value apis w
       = (Threw (Raised e'), w')) ∧
  (∀ e w',
     validate impl order errorMessage (VArr a rules) value apis w
     = (Threw e, w') →
     refs w' = refs w ∧
     read_ref errorMessage w' = read_ref errorMessage w ∧
     ∀ validateTrigger trigger,
       trigger ∈ validateTrigger →
       validateWithTrigger impl order errorMessage validateTrigger trigger
         (VArr a rules) value apis w
       = (Threw e, w')).
Proof.
  split.
  { intros before rule after returned e -> Hret He. by eapply validate_throws. }
  split.
  { intros returned first i later e Hret Hord Hi Hfirst.
    by eapply validate_rejects. }
  split.
  { intros rule Hin Ht.
    destruct (first_throw rules rule Hin Ht)
      as (before & thrower & after & returned & e & -> & Hret & He).
    eexists _, _. by eapply validate_throws. }
  split.
  { intros returned i e Hret Hi Hin.
    destruct (first_rejection _ _ _ _ Hin Hi)
      as (first & j & later & e' & Hord & Hj & Hfirst).
    eexists _, _. by eapply validate_rejects. }
  intros e w' Hv. pose proof (validate_frame _ _ _ _ Hv) as Hrefs.
  split; [by apply Hrefs|]. split; [apply read_ref_refs; by apply Hrefs|].
  intros validateTrigger trigger Hin. unfold validateWithTrigger.
  apply includes_spec in Hin. rewrite Hin. unfold bind. by rewrite Hv.
Qed.

End ValidationFacts.

Lemma validate_first_failure_witness :
  ∃ w',
    validate Sample.impl [1; 0]%nat 0 (VArr 9 [VFun 0; VFun 1]) (VStr "") undefined
      Sample.world
    = (Done false, w') ∧
    read_ref 0 w' = VStr "too short" ∧
    calls w'
    = calls Sample.world ++ rule_calls (VStr "") undefined [VFun 0; VFun 1].
Proof.
  apply (validate_first_failure Sample.impl [1; 0]%nat 0%nat (VStr "") undefined
           9%nat [VFun 0; VFun 1] [PBool true; PStr "too short"]
           [PBool true] (PStr "too short") []).
  - reflexivity.
  - repeat constructor.
  - reflexivity.
  - repeat constructor.
  - discriminate.
Defined.

Lemma validate_true_keeps_errorMessage_witness :
  ∃ w',
    validate Sample.impl [1; 0]%nat 0 (VArr 9 [VFun 0; VFun 0]) (VStr "") undefined
      Sample.world
    = (Done true, w') ∧
    refs w' = refs Sample.world.
Proof.
  destruct (validate_true_keeps_errorMessage Sample.impl [1; 0]%nat 0%nat
              (VStr "") undefined (VArr 9 [VFun 0; VFun 0]) Sample.world)
    as (_ & _ & H & _).
  apply (H 9%nat [VFun 0; VFun 0] [PBool true; PBool true]).
  - reflexivity.
  - discriminate.
  - reflexivity.
  - repeat constructor.
  - repeat constructor.
Defined.

Lemma validateWithTrigger_cases_witness :
  validateWithTrigger Sample.impl [1; 0]%nat 0 [PStr "onChange"] (PStr "onInput")
    (VArr 9 [VFun 0; VFun 1]) (VStr "") undefined Sample.world
  = (Done (), Sample.world) ∧
  ∃ w',
    validateWithTrigger Sample.impl [1; 0]%nat 0 [PStr "onChange"] (PStr "onChange")
      (VArr 9 [VFun 0; VFun 1]) (VStr "") undefined Sample.world
    = (Done (), w') ∧
    read_ref 0 w' = VStr "too short".
Proof.
  split.
  - apply (validateWithTrigger_cases Sample.impl [1; 0]%nat 0%nat (VStr "")
             undefined [PStr "onChange"] (PStr "onInput")).
    by intros [[=]|[]%elem_of_nil]%elem_of_cons.
  - destruct (validateWithTrigger_cases Sample.impl [1; 0]%nat 0%nat (VStr "")
                undefined [PStr "onChange"] (PStr "onChange")
                (VArr 9 [VFun 0; VFun 1]) Sample.world)
      as (_ & _ & H).
    apply (H (list_elem_of_here _ _) 9%nat [VFun 0; VFun 1]
             [PBool true; PStr "too short"] [PBool true] (PStr "too short") []).
    + reflexivity.
    + reflexivity.
    + repeat constructor.
    + reflexivity.
    + repeat constructor.
    + discriminate.
Defined.

Lemma validate_rule_failure_witness :
  validate Sample.impl [2; 1; 0]%nat 0 (VArr 9 [VFun 0; VFun 3; VFun 1])
    (VStr "") undefined Sample.world
  = (Threw (Raised (VStr "offline")),
     after_calls (VStr "") undefined [VFun 0; VFun 3; VFun 1] Sample.world) ∧
  validate Sample.impl [2; 1; 0]%nat 0 (VArr 9 [VFun 0; VFun 8; VFun 1])
    (VStr "") undefined Sample.world
  = (Threw (Raised (VStr "broken")),
     after_calls (VStr "") undefined [VFun 0; VFun 8] Sample.world).
Proof.
  split.
  - destruct (validate_rule_failure Sample.impl [2; 1; 0]%nat 0%nat (VStr "")
                undefined 9%nat [VFun 0; VFun 3; VFun 1] Sample.world)
      as (_ & H & _).
    apply (H [Promise (Fulfils (PBool true));
              Promise (Rejects (VStr "offline"));
              Promise (Fulfils (PStr "too short"))]
             [2%nat] 1%nat [0%nat] (VStr "offline")).
    + reflexivity.
    + reflexivity.
    + reflexivity.
    + constructor; [|constructor]. intros e'. discriminate.
  - destruct (validate_rule_failure Sample.impl [2; 1; 0]%nat 0%nat (VStr "")
                undefined 9%nat [VFun 0; VFun 8; VFun 1] Sample.world)
      as (H & _).
    apply (H [VFun 0] (VFun 8) [VFun 1] [Promise (Fulfils (PBool true))]
             (Raised (VStr "broken"))); reflexivity.
Defined.

(** ** The binding adapter *)

Section VModelFacts.

Variable impl : nat → list Val → Completion.
Variable key : string.
Variable options : UseVModelOptions.

(** A notification writes no cell. *)
Lemma notify_refs (props : gmap string Val) (v : Val) (w : World) :
  refs (notify impl key options props v w).2 = refs w.
Proof.
  unfold notify. destruct (emit options) as [em|]; unfold bind.
  - pose proof (invoke_refs impl (VFun em) [VStr (event key options); v] w).
    by destruct (invoke impl (VFun em) _ w) as [[?| |] ?].
  - pose proof (call_refs impl (prop props (event key options)) [v] w).
    by destruct (call impl _ [v] w) as [[?| |] ?].
Qed.

(** With an emitter, a notification is one call of it. *)
Lemma notify_emit (props : gmap string Val) (v : Val) (w : World) (em : nat) :
  emit options = Some em →
  (notify impl key options props v w).2
  = record_call em [VStr (event key options); v] w.
Proof.
  intros He. unfold notify. rewrite He. unfold bind.
  pose proof (invoke_world impl (VFun em) [VStr (event key options); v] w) as Hw.
  by destruct (invoke impl (VFun em) _ w) as [[?| |] ?].
Qed.

Lemma notify_listener (props : gmap string Val) (v : Val) (w : World) (f : nat) :
  emit options = None →
  prop props (event key options) = VFun f →
  (notify impl key options props v w).2 = record_call f [v] w.
Proof.
  intros He Hf. unfold notify, call. rewrite He, Hf. cbn [val_truthy].
  unfold bind. pose proof (invoke_world impl (VFun f) [v] w) as Hw.
  by destruct (invoke impl (VFun f) [v] w) as [[?| |] ?].
Qed.

Lemma notify_listeners (props : gmap string Val) (v : Val) (w : World)
    (a : nat) (fs : list nat) :
  emit options = None →
  prop props (event key options) = VArr a (VFun <$> fs) →
  Forall (λ f, ∃ r, impl f [v] = Returns r) fs →
  notify impl key options props v w
  = (Done (), mkWorld (refs w) (calls w ++ listener_calls fs [v])).
Proof.
  intros He Hf Hret. unfold notify, call. rewrite He, Hf.
  destruct (map_invoke_listeners impl fs [v] w Hret) as [rs Hrs].
  unfold bind. by rewrite Hrs.
Qed.

(** C5.  In eager mode [useVModel] makes no cell.  Reading what it
    returns gives [props[key]] unless that is null or undefined, and
    [defaultValue] then.  Writing [v] writes no cell; it calls the
    supplied [emit] once, with the event and [v]; without [emit] it calls
    the function at [props[event]] with [v], or each function of the list
    there, in list order. *)
Theorem eager_cell (props0 : gmap string Val) (w0 : World) :
  passive options = Some false →
  ∃ m,
    useVModel impl key options props0 w0 = (Done m, w0) ∧
    ∀ (props : gmap string Val) (v : Val) (w : World),
      cell_get m props w
      = (if not_nullish (prop props key) then prop props key
         else defaultValue options) ∧
      refs (cell_set m props v w).2 = refs w ∧
      (∀ em, emit options = Some em →
         calls (cell_set m props v w).2
         = calls w ++ [Call em [VStr (event key options); v]]) ∧
      (emit options = None →
       ∀ f, prop props (event key options) = VFun f →
         calls (cell_set m props v w).2 = calls w ++ [Call f [v]]) ∧
      (emit options = None →
       ∀ a fs, prop props (event key options) = VArr a (VFun <$> fs) →
         Forall (λ f, ∃ r, impl f [v] = Returns r) fs →
         calls (cell_set m props v w).2 = calls w ++ listener_calls fs [v]).
Proof.
  intros Hp.
  exists (ComputedRef (getValue key options) (notify impl key options)).
  split; [unfold useVModel, is_passive; by rewrite Hp|].
  intros props v w. cbn [cell_get cell_set].
  split; [done|]. split; [apply notify_refs|].
  split; [intros em He; by rewrite (notify_emit props v w em)|].
  split; [intros He f Hf; by rewrite (notify_listener props v w f)|].
  intros He a fs Hf Hret. by rewrite (notify_listeners props v w a fs).
Qed.

(** C2, as the code has it.  Without [eventName] the event is the key
    prefixed by [onUpdate:].  Both modes notify through this name: it is
    the first argument of [emit], and the key under which the listeners
    are looked up in the props bag. *)
Theorem event_name_default :
  eventName options = None →
  event key options = "onUpdate:" +:+ key ∧
  (∀ (props : gmap string Val) (v : Val) (w : World) (em : nat),
     emit options = Some em →
     calls (notify impl key options props v w).2
     = calls w ++ [Call em [VStr ("onUpdate:" +:+ key); v]]) ∧
  (∀ (props : gmap string Val) (v : Val) (w : World),
     emit options = None →
     notify impl key options props v w
     = (do! call impl (prop props ("onUpdate:" +:+ key)) [v] in ret ()) w) ∧
  (∀ (props : gmap string Val) (w : World),
     ∃ m w1,
       useVModel impl key options props w = (Done m, w1) ∧
       match m with
       | ComputedRef _ set => set = notify impl key options
       | ProxyRef _ watchers =>
           cb <$> last watchers = Some (notify impl key options)
       end).
Proof.
  intros Hn. assert (event key options = "onUpdate:" +:+ key) as He.
  { unfold event. by rewrite Hn. }
  split; [done|]. split.
  { intros props v w em Hem. rewrite (notify_emit _ _ _ em Hem). by rewrite He. }
  split.
  { intros props v w Hem. unfold notify. by rewrite Hem, He. }
  intros props w. unfold useVModel.
  destruct (is_passive options); simpl; eexists _, _; by split.
Qed.

Lemma useVModel_passive (props : gmap string Val) (w : World) :
  is_passive options = true →
  useVModel impl key options props w
  = (Done (ProxyRef (fresh (dom (refs w)))
             (watchers impl key options (fresh (dom (refs w))))),
     write_ref (fresh (dom (refs w))) (getValue key options props) w).
Proof. intros Hp. unfold useVModel. by rewrite Hp. Qed.

(** The second watcher, once the proxy holds [v]: one notification when
    [v] differs from what the proxy held in [seen], none otherwise. *)
Lemma notify_watcher (proxy : nat) (props props' : gmap string Val)
    (seen w : World) (v : Val) :
  read_ref proxy w = v →
  run_watcher (props, seen) props'
    {| source := λ _ w, read_ref proxy w;
       cb := λ props newValue, notify impl key options props newValue |} w
  = if hasChanged v (read_ref proxy seen)
    then (notify impl key options props' v w).2 else w.
Proof. intros Hv. unfold run_watcher. cbn [source cb fst snd]. by rewrite Hv. Qed.

Lemma hasChanged_same (v : Val) : hasChanged v v = false.
Proof. unfold hasChanged. destruct v; simpl; by rewrite bool_decide_eq_true_2. Qed.

Lemma step_props_update (proxy : nat) (props props' : gmap string Val) (w : World) :
  hasChanged (prop props' key) (prop props key) = true →
  (step (ProxyRef proxy (watchers impl key options proxy)) (props, w)
     (PropsUpdate props')).2
  = let v := getValue key options props' in
    if hasChanged v (read_ref proxy w)
    then (notify impl key options props' v (write_ref proxy v w)).2
    else write_ref proxy v w.
Proof.
  intros Hc. cbn [step snd]. unfold flush, watchers. cbn [foldl].
  unfold run_watcher at 2. cbn [source cb fst snd]. rewrite Hc.
  unfold set_ref. cbn [snd].
  by rewrite (notify_watcher proxy props props' w _ (getValue key options props'))
    by apply read_write_ref.
Qed.

Lemma step_cell_write (proxy : nat) (props : gmap string Val) (w : World) (v : Val) :
  (step (ProxyRef proxy (watchers impl key options proxy)) (props, w)
     (CellWrite v)).2
  = if hasChanged v (read_ref proxy w)
    then (notify impl key options props v (write_ref proxy v w)).2
    else write_ref proxy v w.
Proof.
  cbn [step snd fst cell_set]. unfold flush, watchers. cbn [foldl].
  unfold run_watcher at 2. cbn [source cb fst snd]. rewrite hasChanged_same.
  by rewrite (notify_watcher proxy props props w _ v) by apply read_write_ref.
Qed.

(** C6, as the code has it.  In buffered mode [useVModel] makes the
    proxy cell, holding the resolved value.  When [props[key]] changes,
    the proxy becomes the resolved value: the new [props[key]], or
    [defaultValue] when that is null or undefined.  When the proxy is
    written, it holds the written value.  In both cases there is exactly
    one notification, carrying the new value of the proxy, when this
    value differs from the one the proxy held, and none when it does
    not. *)
Theorem buffered_cell (props0 : gmap string Val) (w0 : World) :
  is_passive options = true →
  ∃ proxy m w1,
    useVModel impl key options props0 w0 = (Done m, w1) ∧
    m = ProxyRef proxy (watchers impl key options proxy) ∧
    read_ref proxy w1 = getValue key options props0 ∧
    ∀ (props : gmap string Val) (w : World),
      (∀ props',
         hasChanged (prop props' key) (prop props key) = true →
         let w' := (step m (props, w) (PropsUpdate props')).2 in
         let v := if not_nullish (prop props' key) then prop props' key
                  else defaultValue options in
         read_ref proxy w' = v ∧
         (hasChanged v (read_ref proxy w) = true →
          w' = (notify impl key options props' v (write_ref proxy v w)).2 ∧
          ∀ em, emit options = Some em →
            calls w' = calls w ++ [Call em [VStr (event key options); v]]) ∧
         (hasChanged v (read_ref proxy w) = false → calls w' = calls w)) ∧
      (∀ v2,
         let w' := (step m (props, w) (CellWrite v2)).2 in
         read_ref proxy w' = v2 ∧
         (hasChanged v2 (read_ref proxy w) = true →
          w' = (notify impl key options props v2 (write_ref proxy v2 w)).2 ∧
          ∀ em, emit options = Some em →
            calls w' = calls w ++ [Call em [VStr (event key options); v2]]) ∧
         (hasChanged v2 (read_ref proxy w) = false → calls w' = calls w)).
Proof.
  intros Hp. eexists _, _, _. split; [by apply useVModel_passive|].
  split; [done|]. split; [apply read_write_ref|].
  intros props w. split.
  - intros props' Hc. cbn zeta. rewrite (step_props_update _ _ _ _ Hc). cbn zeta.
    fold (getValue key options props').
    destruct (hasChanged (getValue key options props') (read_ref _ w)) eqn:E.
    + split; [|split; [|done]].
      * rewrite (read_ref_refs _ _ _ (notify_refs _ _ _)). apply read_write_ref.
      * intros _. split; [done|]. intros em He.
        by rewrite (notify_emit _ _ _ em).
    + split; [apply read_write_ref|]. by split.
  - intros v2. cbn zeta. rewrite step_cell_write.
    destruct (hasChanged v2 (read_ref _ w)) eqn:E.
    + split; [|split; [|done]].
      * rewrite (read_ref_refs _ _ _ (notify_refs _ _ _)). apply read_write_ref.
      * intros _. split; [done|]. intros em He.
        by rewrite (notify_emit _ _ _ em).
    + split; [apply read_write_ref|]. by split.
Qed.

End VModelFacts.

Lemma eager_cell_witness :
  ∃ m,
    useVModel Sample.sink "modelValue" (Sample.listening (Some false))
      Sample.listened Sample.empty
    = (Done m, Sample.empty) ∧
    cell_get m Sample.listened Sample.empty = Sample.one ∧
    calls (cell_set m Sample.listened Sample.two Sample.empty).2
    = calls Sample.empty ++ listener_calls [4; 5]%nat [Sample.two].
Proof.
  destruct (eager_cell Sample.sink "modelValue" (Sample.listening (Some false))
              Sample.listened Sample.empty eq_refl) as (m & Hm & H).
  exists m. split; [exact Hm|].
  destruct (H Sample.listened Sample.two Sample.empty) as (Hget & _ & _ & _ & Hset).
  split; [exact Hget|].
  apply (Hset eq_refl 0%nat [4; 5]%nat).
  - reflexivity.
  - repeat constructor; eexists; reflexivity.
Defined.

(** The event name without [eventName] is not the key prefixed by
    [update:], neither as a name nor in the call of [emit]. *)
Lemma event_name_counterexample :
  event "modelValue" (Sample.emitting (Some false)) ≠ "update:" +:+ "modelValue" ∧
  calls (notify Sample.sink "modelValue" (Sample.emitting (Some false))
           (Sample.model Sample.one) Sample.two Sample.empty).2
  ≠ [Call 7 [VStr ("update:" +:+ "modelValue"); Sample.two]].
Proof. split; vm_compute; discriminate. Qed.

Lemma event_name_default_witness :
  event "modelValue" (Sample.emitting (Some false)) = "onUpdate:modelValue" ∧
  calls (notify Sample.sink "modelValue" (Sample.emitting (Some false))
           (Sample.model Sample.one) Sample.two Sample.empty).2
  = calls Sample.empty ++ [Call 7 [VStr "onUpdate:modelValue"; Sample.two]].
Proof.
  destruct (event_name_default Sample.sink "modelValue"
              (Sample.emitting (Some false)) eq_refl) as (Hev & Hemit & _).
  split; [exact Hev|].
  exact (Hemit (Sample.model Sample.one) Sample.two Sample.empty 7%nat eq_refl).
Defined.

(** Three runs of the buffered cell, from the state [useVModel] sets up
    with [props.modelValue = 1].
    - The cell is written to 2, then the owner updates the property to 2:
      the property changed to 2, and nothing is notified.
    - The owner updates the property to null: the proxy becomes the default
      value 0, not null.
    - The cell is written to 1, the value it holds: nothing is notified. *)
Lemma buffered_cell_counterexample :
  let w1 := write_ref 0 Sample.one Sample.empty in
  let notified (w w' : World) (v : Val) :=
    calls w' = calls w ++ [Call 7 [VStr "onUpdate:modelValue"; v]] in
  useVModel Sample.sink "modelValue" (Sample.emitting None)
    (Sample.model Sample.one) Sample.empty
  = (Done Sample.cell, w1) ∧
  (let st1 := step Sample.cell (Sample.model Sample.one, w1) (CellWrite Sample.two) in
   let st2 := step Sample.cell st1 (PropsUpdate (Sample.model Sample.two)) in
   hasChanged (prop st2.1 "modelValue") (prop st1.1 "modelValue") = true ∧
   prop st2.1 "modelValue" = Sample.two ∧
   ¬ (read_ref 0 st2.2 = Sample.two ∧ notified st1.2 st2.2 Sample.two)) ∧
  (let st := step Sample.cell (Sample.model Sample.one, w1)
               (PropsUpdate (Sample.model (VPrim PNull))) in
   prop st.1 "modelValue" = VPrim PNull ∧
   ¬ (read_ref 0 st.2 = VPrim PNull ∧ notified w1 st.2 (VPrim PNull))) ∧
  (let st := step Sample.cell (Sample.model Sample.one, w1) (CellWrite Sample.one) in
   ¬ (read_ref 0 st.2 = Sample.one ∧ notified w1 st.2 Sample.one)).
Proof.
  cbn zeta. split; [reflexivity|]. split; [|split].
  - split; [reflexivity|]. split; [reflexivity|].
    intros [_ H]. vm_compute in H. discriminate.
  - split; [reflexivity|]. intros [H _]. vm_compute in H. discriminate.
  - intros [_ H]. vm_compute in H. discriminate.
Qed.

Lemma buffered_cell_witness :
  ∃ proxy m w1,
    useVModel Sample.sink "modelValue" (Sample.emitting None)
      (Sample.model Sample.one) Sample.empty
    = (Done m, w1) ∧
    read_ref proxy w1 = Sample.one ∧
    read_ref proxy
      (step m (Sample.model Sample.one, w1) (PropsUpdate (Sample.model Sample.two))).2
    = Sample.two ∧
    read_ref proxy (step m (Sample.model Sample.one, w1) (CellWrite Sample.two)).2
    = Sample.two.
Proof.
  destruct (buffered_cell Sample.sink "modelValue" (Sample.emitting None)
              (Sample.model Sample.one) Sample.empty eq_refl)
    as (proxy & m & w1 & Hm & _ & Hinit & H).
  exists proxy, m, w1. split; [exact Hm|]. split; [exact Hinit|].
  destruct (H (Sample.model Sample.one) w1) as (Hprops & Hwrite). split.
  - exact (proj1 (Hprops (Sample.model Sample.two) eq_refl)).
  - exact (proj1 (Hwrite Sample.two)).
Defined.


(** * Further properties *)

(** ** pickProps *)

Lemma reduce_pick_lookup (props : gmap string Val) (keys : list string)
    (init : gmap string Val) (k : string) :
  reduce (λ pickedProps key, <[key := prop props key]> pickedProps) keys init !! k
  = if decide (k ∈ keys) then Some (prop props k) else init !! k.
Proof.
  revert init. unfold reduce. induction keys as [|key keys IH]; intros init.
  - cbn [foldl]. case_decide as H; [by apply elem_of_nil in H|done].
  - cbn [foldl]. rewrite IH. destruct (decide (k ∈ keys)) as [Hin|Hnin].
    + by rewrite decide_True by (by right).
    + destruct (decide (k = key)) as [->|Hne].
      * rewrite decide_True by left. by rewrite lookup_insert_eq.
      * rewrite decide_False by (by intros [?|?]%elem_of_cons).
        by rewrite lookup_insert_ne.
Qed.

(** X1.  With an array of keys [pickProps] returns an object whose keys
    are exactly the listed ones, each with the value [props] has for it,
    [undefined] when [props] lacks the key; with one of these keys alone
    it returns the value the object holds for it. *)
Theorem pickProps_keys (props : gmap string Val) (keys : list string) :
  ∃ pickedProps,
    pickProps props (ManyKeys keys) = PickedObject pickedProps ∧
    (∀ k, k ∈ keys → pickedProps !! k = Some (prop props k)) ∧
    (∀ k, k ∉ keys → pickedProps !! k = None) ∧
    (∀ k, k ∈ keys → pickProps props (OneKey k) = PickedValue (prop pickedProps k)).
Proof.
  exists (reduce (λ pickedProps key, <[key := prop props key]> pickedProps) keys ∅).
  split; [done|]. split; [|split].
  - intros k Hk. by rewrite reduce_pick_lookup, decide_True.
  - intros k Hk. by rewrite reduce_pick_lookup, decide_False.
  - intros k Hk. cbn [pickProps]. f_equal. unfold prop at 2.
    by rewrite reduce_pick_lookup, decide_True.
Qed.

(** X2.  Picking keys out of a picked object gives what picking them out
    of the original props gives, when they are among the keys picked
    first. *)
Theorem pickProps_again (props : gmap string Val) (keys keys' : list string) :
  keys' ⊆ keys →
  ∃ pickedProps,
    pickProps props (ManyKeys keys) = PickedObject pickedProps ∧
    pickProps pickedProps (ManyKeys keys') = pickProps props (ManyKeys keys').
Proof.
  intros Hsub. eexists. split; [done|]. unfold pickProps. f_equal.
  apply map_eq. intros k. rewrite !reduce_pick_lookup.
  destruct (decide (k ∈ keys')) as [Hk|]; [|done].
  unfold prop at 1. by rewrite reduce_pick_lookup, decide_True by (by apply Hsub).
Qed.

Lemma pickProps_again_witness :
  ∃ pickedProps,
    pickProps Sample.listened (ManyKeys ["size"; "modelValue"])
    = PickedObject pickedProps ∧
    pickProps pickedProps (ManyKeys ["size"])
    = pickProps Sample.listened (ManyKeys ["size"]).
Proof.
  apply (pickProps_again Sample.listened ["size"; "modelValue"] ["size"]).
  intros k Hk. apply list_elem_of_singleton in Hk as ->. left.
Defined.



(** ** Class names, continued *)

Lemma append_inj (p s1 s2 : string) : p +:+ s1 = p +:+ s2 → s1 = s2.
Proof. induction p as [|c p IH]; simpl; [done|]. intros [= H]. by apply IH. Qed.

Lemma createBEM_local (name s : string) :
  s ≠ "" → first_char_is s "$" = false →
  createBEM name (Some s)
  = componentName name +:+ (if startsWith s "--" then s else "__" +:+ s).
Proof.
  intros Hne Hd. unfold createBEM. rewrite bool_decide_eq_false_2 by done.
  rewrite Hd. by destruct (startsWith s "--").
Qed.

(** X4.  Within one component, two different suffixes, non-empty and not
    starting with [$], give two different classes: elements and modifiers
    never collide. *)
Theorem createBEM_distinct (name s1 s2 : string) :
  s1 ≠ "" → s2 ≠ "" →
  first_char_is s1 "$" = false → first_char_is s2 "$" = false →
  s1 ≠ s2 →
  createBEM name (Some s1) ≠ createBEM name (Some s2).
Proof.
  intros Hn1 Hn2 Hd1 Hd2 Hne. rewrite !createBEM_local by done.
  intros H%append_inj.
  destruct (startsWith s1 "--") eqn:E1, (startsWith s2 "--") eqn:E2.
  - done.
  - subst s1. unfold startsWith in E1. simpl in E1. discriminate.
  - subst s2. unfold startsWith in E2. simpl in E2. discriminate.
  - by apply append_inj in H.
Qed.

Lemma createBEM_distinct_witness :
  createBEM "card" (Some "--title") ≠ createBEM "card" (Some "title").
Proof.
  apply (createBEM_distinct "card" "--title" "title");
    [discriminate | discriminate | reflexivity | reflexivity | discriminate].
Defined.

(** X5.  A conditional entry [[condition, truthy, falsy]] of [classes]
    gives [truthy] under a truthy condition.  Under a falsy condition it
    never gives [undefined]: it gives [falsy], and [null] when [falsy] is
    absent or [undefined]. *)
Theorem classes_conditional (condition : Val) (truthy : Prim) (falsy : option Prim) :
  (val_truthy condition = true →
   classes [CondClass condition truthy falsy] = [truthy]) ∧
  (val_truthy condition = false →
   ∃ c, classes [CondClass condition truthy falsy] = [c] ∧ c ≠ PUndefined ∧
        (falsy = None ∨ falsy = Some PUndefined → c = PNull) ∧
        (∀ f, falsy = Some f → f ≠ PUndefined → c = f)).
Proof.
  unfold classes. simpl. split; intros ->; [done|].
  exists (falsy_or_null falsy). split; [done|].
  destruct falsy as [[]|]; simpl; repeat split; try done;
    try (by intros ? [= <-]); by intros [|].
Qed.

Lemma classes_conditional_witness :
  classes [CondClass (VPrim (PNum 0)) (PStr "active") (Some PUndefined)] = [PNull] ∧
  classes [CondClass (VPrim (PNum 1)) (PStr "active") None] = [PStr "active"].
Proof.
  split.
  - destruct (classes_conditional (VPrim (PNum 0)) (PStr "active") (Some PUndefined))
      as (_ & H).
    destruct (H eq_refl) as (c & Hc & _ & Hnull & _).
    rewrite Hc. f_equal. apply Hnull. by right.
  - destruct (classes_conditional (VPrim (PNum 1)) (PStr "active") None) as (H & _).
    apply H. reflexivity.
Defined.

(** ** formatElevation, continued *)

(** X6.  [defaultLevel] counts only when [elevation] is the boolean
    [true]; and [true] with a non-zero default level gives the class of
    that level. *)
Theorem formatElevation_default_level (elevation defaultLevel defaultLevel' : Prim)
    (n : Z) :
  (elevation ≠ PBool true →
   formatElevation elevation defaultLevel = formatElevation elevation defaultLevel') ∧
  (n ≠ 0 →
   formatElevation (PBool true) (PNum n) = formatElevation (PNum n) defaultLevel).
Proof.
  split.
  - intros Hne. unfold formatElevation.
    destruct (strict_eq elevation (PBool false)); [done|].
    apply strict_eq_false in Hne. by rewrite Hne.
  - intros Hn. unfold formatElevation. simpl.
    by rewrite (proj2 (Z.eqb_neq n 0) Hn).
Qed.

Lemma formatElevation_default_level_witness :
  formatElevation (PNum 2) (PNum 8) = formatElevation (PNum 2) PUndefined ∧
  formatElevation (PBool true) (PNum 8) = formatElevation (PNum 8) (PNum 2).
Proof.
  split.
  - apply (formatElevation_default_level (PNum 2) (PNum 8) PUndefined 8).
    discriminate.
  - apply (formatElevation_default_level (PNum 2) (PNum 2) PUndefined 8).
    discriminate.
Defined.

(** X7.  Two different numeric elevations give two different classes. *)
Theorem formatElevation_levels (n m : Z) (defaultLevel defaultLevel' : Prim) :
  n ≠ m →
  formatElevation (PNum n) defaultLevel ≠ formatElevation (PNum m) defaultLevel'.
Proof.
  intros Hne. unfold formatElevation. simpl. intros [= H].
  by apply (inj pretty) in H.
Qed.

Lemma formatElevation_levels_witness :
  formatElevation (PNum 2) PUndefined ≠ formatElevation (PNum 12) (PNum 3).
Proof. apply (formatElevation_levels 2 12 PUndefined (PNum 3)). discriminate. Defined.

(** ** flatFragment, continued *)

(** X8.  Flattening a concatenation is concatenating the flattenings. *)
Theorem flatFragment_concat (vNodes vNodes' : list VNode) :
  flatFragment (vNodes ++ vNodes') = flatFragment vNodes ++ flatFragment vNodes'.
Proof.
  rewrite !flatFragment_described. unfold flat_described.
  by rewrite fmap_app, join_app.
Qed.

Lemma flat_one_kept (v : VNode) : kept v → flat_one v = [v].
Proof.
  intros [Hc Hf]. unfold flat_one. destruct v as [t c]; simpl in *.
  destruct t; try done. destruct c; try done. by destruct (Hf eq_refl items).
Qed.

(** X9.  A list without comments and without fragments that have an array
    of children is returned as it is. *)
Theorem flatFragment_fixed (vNodes : list VNode) :
  Forall kept vNodes → flatFragment vNodes = vNodes.
Proof.
  rewrite flatFragment_described. unfold flat_described.
  induction 1 as [|v vNodes Hv _ IH]; [done|].
  rewrite fmap_cons. simpl. by rewrite flat_one_kept, IH.
Qed.

Lemma flatFragment_fixed_witness :
  flatFragment [mkVNode (Element "li") ChildrenNull;
                mkVNode Fragment (ChildrenText "a")]
  = [mkVNode (Element "li") ChildrenNull; mkVNode Fragment (ChildrenText "a")].
Proof.
  apply (flatFragment_fixed
           [mkVNode (Element "li") ChildrenNull;
            mkVNode Fragment (ChildrenText "a")]).
  repeat constructor; simpl; discriminate.
Defined.

(** X10.  Every node of the result is a node of the input that is not a
    comment, or a child of a fragment of the input: nothing is invented,
    and a comment in the result comes from inside a fragment. *)
Theorem flatFragment_origin (vNodes : list VNode) (v : VNode) :
  v ∈ flatFragment vNodes →
  (v ∈ vNodes ∧ type v ≠ Comment) ∨
  (∃ items, mkVNode Fragment (ChildrenArray items) ∈ vNodes ∧ v ∈ items).
Proof.
  rewrite flatFragment_described. unfold flat_described.
  rewrite list_elem_of_join. intros (l & Hv & Hl).
  apply list_elem_of_fmap in Hl as (u & -> & Hu).
  unfold flat_one in Hv. destruct u as [t c]; simpl in Hv.
  destruct t; try (apply list_elem_of_singleton in Hv as ->; left; by split).
  - by apply elem_of_nil in Hv.
  - destruct c; try (apply list_elem_of_singleton in Hv as ->; left; by split).
    right. by exists items.
Qed.

Lemma flatFragment_origin_witness :
  (mkVNode Comment ChildrenNull
   ∈ [mkVNode Fragment (ChildrenArray [mkVNode Comment ChildrenNull])]
   ∧ type (mkVNode Comment ChildrenNull) ≠ Comment) ∨
  (∃ items,
     mkVNode Fragment (ChildrenArray items)
     ∈ [mkVNode Fragment (ChildrenArray [mkVNode Comment ChildrenNull])]
     ∧ mkVNode Comment ChildrenNull ∈ items).
Proof.
  apply (flatFragment_origin
           [mkVNode Fragment (ChildrenArray [mkVNode Comment ChildrenNull])]
           (mkVNode Comment ChildrenNull)).
  vm_compute. left.
Defined.

(** ** call, continued *)

Section CallMore.

Variable impl : nat → list Val → Completion.

Lemma map_invoke_results (fs : list nat) (arguments : list Val) (rs : list Ret)
    (w : World) :
  mapM (returned_by impl arguments) fs = Some rs →
  map_ (λ f, invoke impl f arguments) (VFun <$> fs) w
  = (Done rs, mkWorld (refs w) (calls w ++ listener_calls fs arguments)).
Proof.
  rewrite mapM_Some. intros H. revert w.
  induction H as [|f r fs rs Hr _ IH]; intros w.
  - destruct w. simpl. unfold ret. by rewrite app_nil_r.
  - rewrite fmap_cons. cbn [map_]. unfold bind at 1. cbn [invoke].
    unfold returned_by in Hr. destruct (impl f arguments) as [r'|] eqn:E; [|done].
    simplify_eq. unfold bind at 1. rewrite IH. cbn [ret record_call refs calls].
    unfold listener_calls. by rewrite fmap_cons, <- app_assoc.
Qed.

(** X11.  Nothing to call, nothing happens: [call] on a falsy value
    ([undefined], [null], ...) and on the empty array calls no function and
    leaves the world as it is; so does a notification of [useVModel]
    without [emit] when the props have no listener under the event. *)
Theorem call_nothing (fn : Val) (arguments : list Val) (w : World) :
  (val_truthy fn = false → call impl fn arguments w = (Done NoResult, w)) ∧
  (∀ a, fn = VArr a [] → call impl fn arguments w = (Done (Results []), w)) ∧
  (∀ key options (props : gmap string Val) v,
     emit options = None →
     props !! event key options = None →
     notify impl key options props v w = (Done (), w)).
Proof.
  split; [|split].
  - intros Hf. unfold call. destruct fn; try done. by rewrite Hf.
  - by intros a ->.
  - intros key options props v He Hp. unfold notify, prop. by rewrite He, Hp.
Qed.

(** X12.  When the functions of a listener array all return, [call] calls
    each of them once, in array order, and returns their results in that
    order; a single function is called once and its result returned. *)
Theorem call_results (arguments : list Val) (w : World) :
  (∀ a fs (rs : list Ret),
     mapM (returned_by impl arguments) fs = Some rs →
     call impl (VArr a (VFun <$> fs)) arguments w
     = (Done (Results rs),
        mkWorld (refs w) (calls w ++ listener_calls fs arguments))) ∧
  (∀ f r,
     impl f arguments = Returns r →
     call impl (VFun f) arguments w
     = (Done (Result r), mkWorld (refs w) (calls w ++ [Call f arguments]))).
Proof.
  split.
  - intros a fs rs Hrs. unfold call. unfold bind.
    by rewrite (map_invoke_results fs arguments rs w Hrs).
  - intros f r Hr. unfold call. cbn [val_truthy]. unfold bind. cbn [invoke].
    by rewrite Hr.
Qed.

Lemma map_invoke_stops (before : list nat) (bad : Val) (after : list Val)
    (arguments : list Val) (rs : list Ret) (w : World) :
  mapM (returned_by impl arguments) before = Some rs →
  map_ (λ f, invoke impl f arguments) ((VFun <$> before) ++ bad :: after) w
  = match invoke impl bad arguments
            (mkWorld (refs w) (calls w ++ listener_calls before arguments)) with
    | (Done r, w') =>
        match map_ (λ f, invoke impl f arguments) after w' with
        | (Done rs', w'') => (Done (rs ++ r :: rs'), w'')
        | (Threw e, w'') => (Threw e, w'')
        | (Pending, w'') => (Pending, w'')
        end
    | (Threw e, w') => (Threw e, w')
    | (Pending, w') => (Pending, w')
    end.
Proof.
  rewrite mapM_Some. intros H. revert w.
  induction H as [|f r fs rs Hr _ IH]; intros w.
  - destruct w as [rf cs]. cbn [fmap list_fmap app map_ refs calls].
    unfold listener_calls. cbn [fmap list_fmap]. rewrite app_nil_r.
    unfold bind at 1.
    by destruct (invoke impl bad arguments _) as [[rb| |] w'].
  - rewrite fmap_cons, <- app_comm_cons. cbn [map_]. unfold bind at 1. cbn [invoke].
    unfold returned_by in Hr. destruct (impl f arguments) as [r'|] eqn:E; [|done].
    simplify_eq. unfold bind at 1. rewrite IH. cbn [record_call refs calls].
    unfold listener_calls. rewrite fmap_cons, <- app_assoc. cbn [app].
    destruct (invoke impl bad arguments _) as [[rb| |] w']; try done.
    by destruct (map_ _ after w') as [[?| |] ?].
Qed.

(** X13.  [call] on an array stops at the first entry that is not a
    function, with a [TypeError], and at the first function that throws,
    with what it threw: the entries before were called, in order, the
    entries after are not called. *)
Theorem call_stops (a : nat) (before : list nat) (bad : Val) (after : list Val)
    (arguments : list Val) (rs : list Ret) (w : World) :
  mapM (returned_by impl arguments) before = Some rs →
  ((∀ f, bad ≠ VFun f) →
   call impl (VArr a ((VFun <$> before) ++ bad :: after)) arguments w
   = (Threw TypeError,
      mkWorld (refs w) (calls w ++ listener_calls before arguments))) ∧
  (∀ f e, bad = VFun f → impl f arguments = Throws e →
   call impl (VArr a ((VFun <$> before) ++ bad :: after)) arguments w
   = (Threw (Raised e),
      mkWorld (refs w) (calls w ++ listener_calls (before ++ [f]) arguments))).
Proof.
  intros Hrs. split.
  - intros Hbad. unfold call, bind.
    rewrite (map_invoke_stops before bad after arguments rs w Hrs).
    destruct bad as [p|f|b l]; try done. by destruct (Hbad f).
  - intros f e -> He. unfold call, bind.
    rewrite (map_invoke_stops before (VFun f) after arguments rs w Hrs).
    cbn [invoke]. rewrite He. cbn [record_call refs calls].
    unfold listener_calls. by rewrite fmap_app, app_assoc.
Qed.

End CallMore.

Lemma call_nothing_witness :
  call Sample.sink (VPrim PNull) [Sample.two] Sample.empty
  = (Done NoResult, Sample.empty) ∧
  notify Sample.sink "modelValue" (Sample.listening None) (Sample.model Sample.one)
    Sample.two Sample.empty
  = (Done (), Sample.empty).
Proof.
  split.
  - destruct (call_nothing Sample.sink (VPrim PNull) [Sample.two] Sample.empty)
      as (H & _).
    apply H. reflexivity.
  - destruct (call_nothing Sample.sink undefined [] Sample.empty) as (_ & _ & H).
    apply H; reflexivity.
Defined.

Lemma call_results_witness :
  call Sample.impl (VArr 0 (VFun <$> [2; 0]%nat)) [Sample.two] Sample.empty
  = (Done (Results [Plain (PNum 5); Promise (Fulfils (PBool true))]),
     mkWorld (refs Sample.empty)
       (calls Sample.empty ++ listener_calls [2; 0]%nat [Sample.two])).
Proof.
  destruct (call_results Sample.impl [Sample.two] Sample.empty) as (H & _).
  apply (H 0%nat [2; 0]%nat). reflexivity.
Defined.

Lemma call_stops_witness :
  call Sample.impl (VArr 0 ((VFun <$> [2]%nat) ++ VStr "click" :: [VFun 0]))
    [Sample.two] Sample.empty
  = (Threw TypeError,
     mkWorld (refs Sample.empty)
       (calls Sample.empty ++ listener_calls [2]%nat [Sample.two])) ∧
  call Sample.impl (VArr 0 ((VFun <$> [2]%nat) ++ VFun 8 :: [VFun 0]))
    [Sample.two] Sample.empty
  = (Threw (Raised (VStr "broken")),
     mkWorld (refs Sample.empty)
       (calls Sample.empty ++ listener_calls ([2]%nat ++ [8]%nat) [Sample.two])).
Proof.
  split.
  - destruct (call_stops Sample.impl 0%nat [2]%nat (VStr "click") [VFun 0]
                [Sample.two] [Plain (PNum 5)] Sample.empty eq_refl) as (H & _).
    apply H. intros f. discriminate.
  - destruct (call_stops Sample.impl 0%nat [2]%nat (VFun 8) [VFun 0]
                [Sample.two] [Plain (PNum 5)] Sample.empty eq_refl) as (_ & H).
    apply (H 8%nat (VStr "broken")); reflexivity.
Defined.

(** ** The validation runner, continued *)

Section ValidationMore.

Variable impl : nat → list Val → Completion.
Variable order : list nat.
Variable errorMessage : nat.
Variables value apis : Val.

(** X14.  [validate] calls every rule, once and in list order, when the
    rules return: a failing result of an earlier rule does not keep the
    later rules from being called, and the order in which the promises
    settle plays no part. *)
Theorem validate_calls_every_rule (a : nat) (rules : list Val)
    (returned : list Ret) (w : World) :
  mapM (rule_return impl value apis) rules = Some returned →
  calls (validate impl order errorMessage (VArr a rules) value apis w).2
  = calls w ++ rule_calls value apis rules.
Proof.
  intros Hret. unfold validate. case_bool_decide as Hlen.
  - destruct rules; [|done]. simpl. by rewrite app_nil_r.
  - unfold bind at 1. rewrite (map_invoke_returns _ _ _ _ _ _ Hret).
    unfold bind at 1.
    destruct (Promise_all (settlement <$> returned) order) as [resArr|e|];
      cbn [await ret throw]; try done.
    unfold bind at 1. rewrite some_failing.
    by destruct (list_find failing resArr) as [[??]|].
Qed.

(** A slot that stays empty keeps [Promise.all] from settling, unless a
    promise rejects. *)
Lemma all_reactions_unsettled (promises : list Settlement) (order' : list nat)
    (i : nat) :
  i ∉ order' →
  Forall (λ j, ∀ e, promises !! j ≠ Some (Rejects e)) order' →
  ∀ values remaining,
    all_inv promises values remaining →
    values !! i = Some None →
    all_reactions promises order' values remaining = Unsettled.
Proof.
  intros Hi Hrej. induction Hrej as [|j order' Hj _ IH];
    intros values remaining Hinv Hv; [done|].
  apply not_elem_of_cons in Hi as [Hne Hi]. simpl.
  destruct (promises !! j) as [[r|e]|] eqn:Hp; [|by destruct (Hj e)|by apply IH].
  destruct (all_inv_slot _ _ _ _ _ Hinv Hp) as [[r'|] Hvj]; rewrite Hvj;
    [by apply IH|].
  pose proof (all_inv_fill _ _ _ _ _ Hinv Hp Hvj) as Hinv'.
  assert (<[j := Some r]> values !! i = Some None) as Hv'
    by (by rewrite list_lookup_insert_ne).
  rewrite bool_decide_eq_false_2; [by apply IH|].
  apply unfilled_pos in Hv'. destruct Hinv' as (_ & Hrem & _). lia.
Qed.

(** X15.  [validate] waits for all the rules: as long as the promise of
    one rule has not settled and none has rejected, the call does not
    resolve and [errorMessage] is not written, even when a result that
    fails is already there. *)
Theorem validate_waits_for_all (a : nat) (rules : list Val)
    (returned : list Ret) (i : nat) (w : World) :
  mapM (rule_return impl value apis) rules = Some returned →
  (i < length rules)%nat →
  i ∉ order →
  Forall (λ j, ∀ e, (settlement <$> returned) !! j ≠ Some (Rejects e)) order →
  validate impl order errorMessage (VArr a rules) value apis w
  = (Pending, after_calls value apis rules w).
Proof.
  intros Hret Hlen Hi Hrej. unfold validate.
  rewrite bool_decide_eq_false_2 by lia.
  unfold bind at 1. rewrite (map_invoke_returns _ _ _ _ _ _ Hret).
  apply length_mapM in Hret.
  assert (Promise_all (settlement <$> returned) order = Unsettled) as ->; [|done].
  unfold Promise_all.
  destruct (settlement <$> returned) as [|p ps] eqn:E.
  { apply (f_equal length) in E. rewrite length_fmap in E. simpl in E. lia. }
  rewrite <- E in *.
  apply (all_reactions_unsettled _ _ i); [done..|apply all_inv_init|].
  apply lookup_replicate. split; [done|]. rewrite length_fmap. lia.
Qed.

(** A run writes at most its own cell. *)
Lemma validate_writes (rules : Val) (w : World) (o : Outcome bool) (w' : World) :
  validate impl order errorMessage rules value apis w = (o, w') →
  refs w' = refs w ∨ ∃ s, refs w' = <[errorMessage := VStr s]> (refs w).
Proof.
  unfold validate.
  destruct rules as [p|f|a rules]; try (intros [= <- <-]; by left).
  case_bool_decide; [intros [= <- <-]; by left|].
  unfold bind at 1.
  pose proof (map_invoke_refs impl rules [value; apis] w) as Hrefs.
  destruct (map_ _ rules w) as [[returned|e|] w1]; simpl in Hrefs;
    try (intros [= <- <-]; by left).
  unfold bind at 1.
  destruct (Promise_all (settlement <$> returned) order) as [resArr|e|];
    cbn [await ret throw]; try (intros [= <- <-]; by left).
  unfold bind at 1. rewrite some_failing.
  destruct (list_find failing resArr) as [[? res]|]; cbn [negb ret];
    intros [= <- <-]; [right|by left].
  exists (js_String res). cbn [write_ref refs]. by rewrite Hrefs.
Qed.

Lemma read_ref_insert_ne (cell other : nat) (v : Val) (w w' : World) :
  other ≠ cell →
  refs w' = <[cell := v]> (refs w) →
  read_ref other w' = read_ref other w.
Proof. intros Hne H. unfold read_ref. by rewrite H, lookup_insert_ne. Qed.

(** X17.  The three functions of one [useValidation] write no cell but
    its own [errorMessage]: whatever the rules and the outcome, every other
    cell, and so the message of every other validated field, keeps its
    value. *)
Theorem validation_own_cell (other : nat) (w : World) :
  other ≠ errorMessage →
  (∀ rules, read_ref other (validate impl order errorMessage rules value apis w).2
            = read_ref other w) ∧
  (∀ validateTrigger trigger rules,
     read_ref other
       (validateWithTrigger impl order errorMessage validateTrigger trigger
          rules value apis w).2
     = read_ref other w) ∧
  read_ref other (resetValidation errorMessage w).2 = read_ref other w.
Proof.
  intros Hne.
  assert (∀ rules,
            read_ref other (validate impl order errorMessage rules value apis w).2
            = read_ref other w) as Hv.
  { intros rules.
    destruct (validate impl order errorMessage rules value apis w) as [o w'] eqn:E.
    destruct (validate_writes _ _ _ _ E) as [H|[s H]]; simpl.
    - by apply read_ref_refs.
    - by eapply read_ref_insert_ne. }
  split; [done|]. split.
  - intros validateTrigger trigger rules. unfold validateWithTrigger.
    destruct (includes validateTrigger trigger); [|done].
    unfold bind. specialize (Hv rules).
    destruct (validate impl order errorMessage rules value apis w) as [[[|]| |] w'];
      simpl in *; try done.
    rewrite <- Hv. by eapply read_ref_insert_ne.
  - by eapply read_ref_insert_ne.
Qed.

(** X19.  Without rules to run ([rules] is not an array, or is empty),
    [validateWithTrigger] on a trigger it listens to does what
    [resetValidation] does: it clears [errorMessage]. *)
Theorem validateWithTrigger_no_rules (validateTrigger : list Prim) (trigger : Prim)
    (rules : Val) (w : World) :
  trigger ∈ validateTrigger →
  (∀ a rule rs, rules ≠ VArr a (rule :: rs)) →
  validateWithTrigger impl order errorMessage validateTrigger trigger
    rules value apis w
  = resetValidation errorMessage w.
Proof.
  intros Hin Hno. unfold validateWithTrigger.
  apply includes_spec in Hin. rewrite Hin. unfold bind.
  destruct rules as [p|f|a [|rule rs]]; try done. by destruct (Hno a rule rs).
Qed.

End ValidationMore.

Lemma validate_calls_every_rule_witness :
  calls (validate Sample.impl [0; 2]%nat 0 (VArr 9 [VFun 2; VFun 3; VFun 0])
           (VStr "") undefined Sample.world).2
  = calls Sample.world ++ rule_calls (VStr "") undefined [VFun 2; VFun 3; VFun 0].
Proof.
  apply (validate_calls_every_rule Sample.impl [0; 2]%nat 0%nat (VStr "") undefined
           9%nat [VFun 2; VFun 3; VFun 0]
           [Plain (PNum 5); Promise (Rejects (VStr "offline"));
            Promise (Fulfils (PBool true))]).
  reflexivity.
Defined.

Lemma validate_waits_for_all_witness :
  validate Sample.impl [0]%nat 0 (VArr 9 [VFun 2; VFun 0]) (VStr "") undefined
    Sample.world
  = (Pending, after_calls (VStr "") undefined [VFun 2; VFun 0] Sample.world).
Proof.
  apply (validate_waits_for_all Sample.impl [0]%nat 0%nat (VStr "") undefined
           9%nat [VFun 2; VFun 0]
           [Plain (PNum 5); Promise (Fulfils (PBool true))] 1%nat).
  - reflexivity.
  - simpl. lia.
  - intros [H|H]%elem_of_cons; [discriminate|by apply elem_of_nil in H].
  - repeat constructor. intros e. discriminate.
Defined.

Lemma validation_own_cell_witness :
  read_ref 1
    (validate Sample.impl [1; 0]%nat 0 (VArr 9 [VFun 0; VFun 1]) (VStr "") undefined
       Sample.world).2
  = read_ref 1 Sample.world.
Proof.
  destruct (validation_own_cell Sample.impl [1; 0]%nat 0%nat (VStr "") undefined
              1%nat Sample.world) as (H & _); [discriminate|].
  apply H.
Defined.

Lemma validateWithTrigger_no_rules_witness :
  validateWithTrigger Sample.impl [1; 0]%nat 0 [PStr "onChange"] (PStr "onChange")
    (VArr 9 []) (VStr "") undefined Sample.world
  = resetValidation 0 Sample.world.
Proof.
  apply (validateWithTrigger_no_rules Sample.impl [1; 0]%nat 0%nat (VStr "")
           undefined [PStr "onChange"] (PStr "onChange") (VArr 9 [])).
  - left.
  - intros a rule rs. discriminate.
Defined.

Section ValidationSequence.

Variable impl : nat → list Val → Completion.
Variable errorMessage : nat.

(** X16.  A message stays after a later successful [validate]: when one
    run fails with a result and a later run of [validate] passes,
    [errorMessage] is still the string form of that result; the same
    passing run through [validateWithTrigger] clears it. *)
Theorem validate_stale_message (order order' : list nat)
    (value value' apis apis' : Val) (a a' : nat) (rules rules' : list Val)
    (passed : list Prim) (res : Prim) (rest results' : list Prim) (w : World) :
  mapM (rule_result impl value apis) rules = Some (passed ++ res :: rest) →
  settles_all (length rules) order →
  Forall (λ r, r = PBool true) passed →
  res ≠ PBool true →
  rules' ≠ [] →
  mapM (rule_result impl value' apis') rules' = Some results' →
  settles_all (length rules') order' →
  Forall (λ r, r = PBool true) results' →
  ∀ validateTrigger trigger, trigger ∈ validateTrigger →
  let w1 := (validate impl order errorMessage (VArr a rules) value apis w).2 in
  (∃ w2,
     validate impl order' errorMessage (VArr a' rules') value' apis' w1
     = (Done true, w2) ∧
     read_ref errorMessage w2 = VStr (js_String res)) ∧
  (∃ w2,
     validateWithTrigger impl order' errorMessage validateTrigger trigger
       (VArr a' rules') value' apis' w1
     = (Done (), w2) ∧
     read_ref errorMessage w2 = VStr "").
Proof.
  intros Hres Hord Hp Hf Hne' Hres' Hord' Hall validateTrigger trigger Hin.
  rewrite (validate_run impl order errorMessage value apis a rules
             (passed ++ res :: rest) w);
    [|by eapply failing_results_nonempty|done..].
  rewrite list_find_first by done. cbn zeta. cbn [snd].
  set (w1 := write_ref errorMessage _ _).
  pose proof (validate_run impl order' errorMessage value' apis' a' rules'
                results' w1 Hne' Hres' Hord') as Hrun.
  rewrite list_find_all_pass in Hrun by done. split.
  - eexists. split; [exact Hrun|].
    unfold after_calls, read_ref. cbn [refs]. unfold w1. cbn [write_ref refs].
    by rewrite lookup_insert_eq.
  - eexists. split.
    + unfold validateWithTrigger. apply includes_spec in Hin. rewrite Hin.
      unfold bind. by rewrite Hrun.
    + apply read_write_ref.
Qed.

End ValidationSequence.

Lemma validate_stale_message_witness :
  ∃ w2,
    validate Sample.impl [0]%nat 0 (VArr 9 [VFun 0]) (VStr "long enough") undefined
      (validate Sample.impl [1; 0]%nat 0 (VArr 9 [VFun 0; VFun 1]) (VStr "")
         undefined Sample.world).2
    = (Done true, w2) ∧
    read_ref 0 w2 = VStr "too short".
Proof.
  destruct (validate_stale_message Sample.impl 0%nat [1; 0]%nat [0]%nat
              (VStr "") (VStr "long enough") undefined undefined 9%nat 9%nat
              [VFun 0; VFun 1] [VFun 0] [PBool true] (PStr "too short") []
              [PBool true] Sample.world)
    with (validateTrigger := [PStr "onChange"]) (trigger := PStr "onChange")
    as (H & _).
  - reflexivity.
  - repeat constructor.
  - repeat constructor.
  - discriminate.
  - discriminate.
  - reflexivity.
  - repeat constructor.
  - repeat constructor.
  - left.
  - exact H.
Defined.

(** X18.  Two calls of [useValidation] give two different cells, both
    holding the empty message; no rule is called and no cell that existed
    is touched. *)
Theorem useValidation_instances (w : World) :
  ∃ e1 w1 e2 w2,
    useValidation w = (Done e1, w1) ∧
    useValidation w1 = (Done e2, w2) ∧
    e1 ≠ e2 ∧
    read_ref e1 w2 = VStr "" ∧ read_ref e2 w2 = VStr "" ∧
    calls w2 = calls w ∧
    ∀ c, c ∈ dom (refs w) → c ≠ e1 ∧ c ≠ e2 ∧ read_ref c w2 = read_ref c w.
Proof.
  unfold useValidation, ref. eexists _, _, _, _. split; [done|]. split; [done|].
  cbn [write_ref refs calls].
  set (e1 := fresh (dom (refs w))).
  set (e2 := fresh (dom (<[e1 := VStr ""]> (refs w)))).
  assert (e1 ∉ dom (refs w)) as H1 by apply is_fresh.
  assert (e2 ∉ dom (<[e1 := VStr ""]> (refs w))) as H2 by apply is_fresh.
  rewrite dom_insert_L in H2.
  assert (e1 ≠ e2) as Hne by set_solver.
  split; [done|]. unfold read_ref, write_ref. cbn [refs].
  split; [by rewrite lookup_insert_ne, lookup_insert_eq|].
  split; [by rewrite lookup_insert_eq|]. split; [done|].
  intros c Hc. split; [set_solver|]. split; [set_solver|].
  rewrite !lookup_insert_ne; [done|set_solver..].
Qed.

(** ** The binding adapter, continued *)

Section VModelMore.

Variable impl : nat → list Val → Completion.
Variable key : string.
Variable options : UseVModelOptions.

Lemma cell_write_world (proxy : nat) (props : gmap string Val) (w : World) (v : Val) :
  (cell_set (ProxyRef proxy (watchers impl key options proxy)) props v w).2
  = (step (ProxyRef proxy (watchers impl key options proxy)) (props, w)
       (CellWrite v)).2.
Proof. done. Qed.

(** X20.  Reading the cell right after writing [v] to it: the buffered
    cell gives [v]; the eager cell gives what it gave before the write,
    the resolved value of the props, which the write does not change. *)
Theorem read_after_write (props0 props : gmap string Val) (v : Val) (w0 w : World)
    (m : VModel) (w1 : World) :
  useVModel impl key options props0 w0 = (Done m, w1) →
  cell_get m props (cell_set m props v w).2
  = if is_passive options then v else cell_get m props w.
Proof.
  unfold useVModel. destruct (is_passive options); simpl.
  - intros [= <- <-]. cbn [cell_get]. rewrite cell_write_world, step_cell_write.
    destruct (hasChanged v _); [|apply read_write_ref].
    rewrite (read_ref_refs _ _ _ (notify_refs _ _ _ _ _ _)). apply read_write_ref.
  - by intros [= <- <-].
Qed.

(** X21.  An update of the props that leaves [props[key]] the same value
    does nothing to the buffered cell: the proxy keeps its value and
    nothing is notified, whatever else changed in the props. *)
Theorem props_update_elsewhere (proxy : nat) (props props' : gmap string Val)
    (w : World) :
  hasChanged (prop props' key) (prop props key) = false →
  step (ProxyRef proxy (watchers impl key options proxy)) (props, w)
    (PropsUpdate props')
  = (props', w).
Proof.
  intros Hc. cbn [step]. f_equal. unfold flush, watchers. cbn [foldl].
  unfold run_watcher. cbn [source cb fst snd]. rewrite Hc.
  by rewrite hasChanged_same.
Qed.

Lemma write_ref_again (proxy : nat) (v : Val) (w w' : World) :
  refs w' = refs (write_ref proxy v w) →
  write_ref proxy v w' = w'.
Proof.
  destruct w' as [rf cs]. unfold write_ref. cbn [refs calls]. intros ->.
  by rewrite insert_insert_eq.
Qed.

(** X22.  No echo: after the buffered cell was written to a value [v]
    that is neither null nor undefined, the owner setting [props[key]] to
    [v] changes nothing: the proxy still holds [v], and no further
    notification goes out. *)
Theorem write_then_echo (proxy : nat) (props props' : gmap string Val)
    (w : World) (v : Val) :
  not_nullish v = true →
  prop props' key = v →
  let m := ProxyRef proxy (watchers impl key options proxy) in
  let st1 := step m (props, w) (CellWrite v) in
  let st2 := step m st1 (PropsUpdate props') in
  read_ref proxy st1.2 = v ∧ st2 = (props', st1.2).
Proof.
  intros Hv Hp m st1 st2.
  assert (st1 = (props, st1.2)) as Hst1 by done.
  assert (refs st1.2 = refs (write_ref proxy v w)) as Hrefs.
  { unfold st1, m. rewrite step_cell_write.
    destruct (hasChanged v _); [apply notify_refs|done]. }
  assert (read_ref proxy st1.2 = v) as Hread.
  { rewrite (read_ref_refs _ _ _ Hrefs). apply read_write_ref. }
  split; [done|]. unfold st2. rewrite Hst1.
  destruct (hasChanged (prop props' key) (prop props key)) eqn:Hc.
  - transitivity (props', (step m (props, st1.2) (PropsUpdate props')).2); [done|].
    f_equal. unfold m. rewrite (step_props_update _ _ _ _ _ _ _ Hc). cbn zeta.
    unfold getValue. rewrite Hp, Hv, Hread, hasChanged_same.
    by apply (write_ref_again proxy v w).
  - by apply props_update_elsewhere.
Qed.

(** X23.  Setting up the buffered cell notifies nobody and touches no
    cell that existed: the proxy is a new cell. *)
Theorem buffered_setup (props : gmap string Val) (w : World) :
  is_passive options = true →
  ∃ proxy w1,
    useVModel impl key options props w
    = (Done (ProxyRef proxy (watchers impl key options proxy)), w1) ∧
    (proxy ∉ dom (refs w)) ∧
    calls w1 = calls w ∧
    ∀ c, c ≠ proxy → read_ref c w1 = read_ref c w.
Proof.
  intros Hp. rewrite useVModel_passive by done. eexists _, _. split; [done|].
  split; [apply is_fresh|]. split; [done|].
  intros c Hc. unfold read_ref, write_ref. cbn [refs]. by rewrite lookup_insert_ne.
Qed.

Lemma step_emits (proxy em : nat) (st : gmap string Val * World) (a : Action) :
  emit options = Some em →
  ∃ vs,
    (length vs ≤ 1)%nat ∧
    calls (step (ProxyRef proxy (watchers impl key options proxy)) st a).2
    = calls st.2 ++ emit_calls em (event key options) vs.
Proof.
  intros He. destruct st as [props w]. destruct a as [props'|v].
  - destruct (hasChanged (prop props' key) (prop props key)) eqn:Hc.
    + rewrite (step_props_update _ _ _ _ _ _ _ Hc). cbn zeta.
      destruct (hasChanged _ (read_ref proxy w)).
      * rewrite (notify_emit _ _ _ _ _ _ em He).
        exists [getValue key options props']. split; [simpl; lia|done].
      * exists []. split; [simpl; lia|]. simpl. by rewrite app_nil_r.
    + rewrite props_update_elsewhere by done. exists [].
      split; [simpl; lia|]. simpl. by rewrite app_nil_r.
  - rewrite step_cell_write. destruct (hasChanged v (read_ref proxy w)).
    + rewrite (notify_emit _ _ _ _ _ _ em He). exists [v]. split; [simpl; lia|done].
    + exists []. split; [simpl; lia|]. simpl. by rewrite app_nil_r.
Qed.

(** X24.  With an emitter, a buffered cell makes no other call than calls
    of the emitter with the event name, and at most one per write or props
    update, over any run. *)
Theorem run_emits (proxy em : nat) (actions : list Action)
    (st : gmap string Val * World) :
  emit options = Some em →
  ∃ vs,
    (length vs ≤ length actions)%nat ∧
    calls (run_actions (ProxyRef proxy (watchers impl key options proxy)) st actions).2
    = calls st.2 ++ emit_calls em (event key options) vs.
Proof.
  intros He. revert st. induction actions as [|a actions IH]; intros st.
  - exists []. split; [done|]. simpl. by rewrite app_nil_r.
  - unfold run_actions in *. cbn [foldl].
    destruct (step_emits proxy em st a He) as (vs1 & Hl1 & H1).
    destruct (IH (step (ProxyRef proxy (watchers impl key options proxy)) st a))
      as (vs2 & Hl2 & H2).
    exists (vs1 ++ vs2). split; [rewrite length_app; simpl; lia|].
    rewrite H2, H1. unfold emit_calls. by rewrite fmap_app, app_assoc.
Qed.

End VModelMore.

Lemma read_after_write_witness :
  cell_get Sample.cell (Sample.model Sample.one)
    (cell_set Sample.cell (Sample.model Sample.one) Sample.two
       (write_ref 0 Sample.one Sample.empty)).2
  = if is_passive (Sample.emitting None) then Sample.two
    else cell_get Sample.cell (Sample.model Sample.one)
           (write_ref 0 Sample.one Sample.empty).
Proof.
  apply (read_after_write Sample.sink "modelValue" (Sample.emitting None)
           (Sample.model Sample.one) (Sample.model Sample.one) Sample.two
           Sample.empty (write_ref 0 Sample.one Sample.empty) Sample.cell
           (write_ref 0 Sample.one Sample.empty)).
  reflexivity.
Defined.

Lemma props_update_elsewhere_witness :
  step Sample.cell (Sample.model Sample.one, write_ref 0 Sample.one Sample.empty)
    (PropsUpdate Sample.listened)
  = (Sample.listened, write_ref 0 Sample.one Sample.empty).
Proof.
  apply (props_update_elsewhere Sample.sink "modelValue" (Sample.emitting None)
           0%nat (Sample.model Sample.one) Sample.listened).
  reflexivity.
Defined.

Lemma write_then_echo_witness :
  let st1 := step Sample.cell
               (Sample.model Sample.one, write_ref 0 Sample.one Sample.empty)
               (CellWrite Sample.two) in
  read_ref 0 st1.2 = Sample.two ∧
  step Sample.cell st1 (PropsUpdate (Sample.model Sample.two))
  = (Sample.model Sample.two, st1.2).
Proof.
  apply (write_then_echo Sample.sink "modelValue" (Sample.emitting None) 0%nat
           (Sample.model Sample.one) (Sample.model Sample.two)
           (write_ref 0 Sample.one Sample.empty) Sample.two);
    reflexivity.
Defined.

Lemma buffered_setup_witness :
  ∃ proxy w1,
    useVModel Sample.sink "modelValue" (Sample.emitting None)
      (Sample.model Sample.one) Sample.world
    = (Done (ProxyRef proxy
               (watchers Sample.sink "modelValue" (Sample.emitting None) proxy)),
       w1) ∧
    (proxy ∉ dom (refs Sample.world)) ∧
    calls w1 = calls Sample.world ∧
    ∀ c, c ≠ proxy → read_ref c w1 = read_ref c Sample.world.
Proof.
  apply (buffered_setup Sample.sink "modelValue" (Sample.emitting None)
           (Sample.model Sample.one) Sample.world).
  reflexivity.
Defined.

Lemma run_emits_witness :
  ∃ vs,
    (length vs ≤ 3)%nat ∧
    calls (run_actions Sample.cell
             (Sample.model Sample.one, write_ref 0 Sample.one Sample.empty)
             [CellWrite Sample.two; PropsUpdate (Sample.model Sample.two);
              CellWrite Sample.one]).2
    = calls (write_ref 0 Sample.one Sample.empty)
      ++ emit_calls 7 (event "modelValue" (Sample.emitting None)) vs.
Proof.
  apply (run_emits Sample.sink "modelValue" (Sample.emitting None) 0%nat 7%nat
           [CellWrite Sample.two; PropsUpdate (Sample.model Sample.two);
            CellWrite Sample.one]
           (Sample.model Sample.one, write_ref 0 Sample.one Sample.empty)).
  reflexivity.
Defined.

(** ** useTeleport *)

Lemma lifecycle_last (disabled : nat) (evs : list Lifecycle) (w : World) :
  read_ref disabled (lifecycle disabled evs w)
  = match last evs with
    | Some Deactivated => VPrim (PBool true)
    | Some Activated => VPrim (PBool false)
    | None => read_ref disabled w
    end.
Proof.
  revert w. induction evs as [|ev evs IH]; intros w; [done|].
  unfold lifecycle in *. cbn [foldl]. rewrite IH, last_cons.
  destruct (last evs) as [[|]|]; try done.
  destruct ev; apply read_write_ref.
Qed.

Lemma lifecycle_other (disabled other : nat) (evs : list Lifecycle) (w : World) :
  other ≠ disabled →
  read_ref other (lifecycle disabled evs w) = read_ref other w.
Proof.
  intros Hne. revert w. induction evs as [|ev evs IH]; intros w; [done|].
  unfold lifecycle in *. cbn [foldl]. rewrite IH.
  unfold read_ref. destruct ev; cbn [teleport_hook set_ref snd write_ref refs];
    by rewrite lookup_insert_ne.
Qed.

(** X25.  [disabled] starts as [false], and after any sequence of
    activations and deactivations of the component it is [true] exactly
    when the last of them was a deactivation; the hooks write no other
    cell. *)
Theorem useTeleport_disabled (evs : list Lifecycle) (w : World) :
  ∃ disabled w1,
    useTeleport w = (Done disabled, w1) ∧
    read_ref disabled (lifecycle disabled evs w1)
    = VPrim (PBool (bool_decide (last evs = Some Deactivated))) ∧
    ∀ other, other ≠ disabled →
      read_ref other (lifecycle disabled evs w1) = read_ref other w.
Proof.
  unfold useTeleport, ref. eexists _, _. split; [done|]. split.
  - rewrite lifecycle_last. destruct (last evs) as [[|]|]; try done.
    apply read_write_ref.
  - intros other Hne. rewrite lifecycle_other by done.
    unfold read_ref, write_ref. cbn [refs]. by rewrite lookup_insert_ne.
Qed.

(** ** mount *)

Lemma filter_absent (node : nat) (children : list nat) :
  node ∉ children → filter (λ n, n ≠ node) children = children.
Proof.
  induction children as [|c children IH]; [done|].
  intros [Hne Hn]%not_elem_of_cons. rewrite filter_cons.
  rewrite decide_True by done. by rewrite IH.
Qed.

Lemma well_formed_fresh (pg : Page) : well_formed pg → elements pg ∉ body pg.
Proof.
  unfold well_formed. rewrite Forall_forall. intros H Hin.
  specialize (H _ Hin). lia.
Qed.

Lemma removeChild_last (children : list nat) (node : nat) :
  node ∉ children → removeChild (children ++ [node]) node = Some children.
Proof.
  intros Hn. unfold removeChild.
  rewrite bool_decide_eq_true_2 by (apply elem_of_app; right; by left).
  rewrite filter_app, filter_absent by done.
  rewrite filter_cons, decide_False by (by intros []). by rewrite app_nil_r.
Qed.

Lemma mount_page (component : nat) (pg : Page) :
  well_formed pg →
  mount component pg
  = ({| instance := apps pg; unmount_app := apps pg; unmount_host := elements pg |},
     mkPage (body pg ++ [elements pg]) (S (elements pg)) (S (apps pg))
       (app_calls pg
        ++ [CreateApp (apps pg) component; AppMount (apps pg) (elements pg)]))
  ∧ well_formed (mount component pg).2.
Proof.
  intros Hwf. unfold mount, appendChild. cbn [snd].
  rewrite filter_absent by (by apply well_formed_fresh). split; [done|].
  unfold well_formed in *. cbn [body elements]. apply Forall_app. split.
  - eapply Forall_impl; [done|]. simpl. lia.
  - repeat constructor.
Qed.

(** X26.  [mount] adds its host as the last child of [document.body], and
    [unmount] takes away this host and no other node: right after the
    mount the body is as it was before; with a second instance mounted
    after it, each of the two can be unmounted and the host of the other
    stays in place. *)
Theorem mount_unmount (component component' : nat) (pg : Page) :
  well_formed pg →
  let m := (mount component pg).1 in
  let pg1 := (mount component pg).2 in
  let m' := (mount component' pg1).1 in
  let pg2 := (mount component' pg1).2 in
  body pg1 = body pg ++ [unmount_host m] ∧
  body pg2 = body pg ++ [unmount_host m; unmount_host m'] ∧
  (∃ pg', run_unmount m pg1 = (Done (), pg') ∧ body pg' = body pg) ∧
  (∃ pg', run_unmount m pg2 = (Done (), pg') ∧
          body pg' = body pg ++ [unmount_host m']) ∧
  (∃ pg', run_unmount m' pg2 = (Done (), pg') ∧
          body pg' = body pg ++ [unmount_host m]).
Proof.
  intros Hwf m pg1 m' pg2.
  pose proof (mount_page component pg Hwf) as [H1 Hwf1].
  pose proof (mount_page component' pg1 Hwf1) as [H2 _].
  pose proof (well_formed_fresh pg Hwf) as Hfresh.
  unfold m', pg2. rewrite H2. unfold m, pg1. rewrite H1.
  cbn [fst snd body elements apps app_calls unmount_host].
  split; [done|]. split; [by rewrite <- app_assoc|].
  unfold run_unmount, unmount.
  cbn [body elements apps app_calls unmount_host unmount_app].
  split; [|split].
  - rewrite removeChild_last by done. by eexists.
  - unfold removeChild.
    rewrite bool_decide_eq_true_2
      by (apply elem_of_app; left; apply elem_of_app; right; left).
    eexists. split; [done|]. cbn [body].
    rewrite !filter_app, filter_absent by done.
    rewrite !filter_cons, decide_False by (by intros []).
    rewrite decide_True by lia. by rewrite !filter_nil, app_nil_r.
  - rewrite removeChild_last; [by eexists|].
    intros [Hin|Hin%list_elem_of_singleton]%elem_of_app; [|lia].
    unfold well_formed in Hwf. rewrite Forall_forall in Hwf.
    specialize (Hwf _ Hin). lia.
Qed.

Lemma mount_unmount_witness :
  ∃ pg',
    run_unmount (mount 1 (mkPage [0; 1]%nat 2 0 [])).1
      (mount 2 (mount 1 (mkPage [0; 1]%nat 2 0 [])).2).2
    = (Done (), pg') ∧
    body pg' = [0; 1]%nat ++ [unmount_host (mount 2 (mount 1 (mkPage [0; 1]%nat 2 0 [])).2).1].
Proof.
  destruct (mount_unmount 1 2 (mkPage [0; 1]%nat 2 0 [])) as (_ & _ & _ & H & _).
  - repeat constructor.
  - exact H.
Defined.

(** X27.  [unmount] works once: a second call on the same instance throws
    a [NotFoundError], its host being no child of [document.body] any
    more, and leaves the children of the body as they are. *)
Theorem unmount_twice (component : nat) (pg : Page) :
  well_formed pg →
  let m := (mount component pg).1 in
  let pg1 := (mount component pg).2 in
  ∃ pg2 pg3,
    run_unmount m pg1 = (Done (), pg2) ∧
    run_unmount m pg2 = (Threw NotFoundError, pg3) ∧
    body pg3 = body pg.
Proof.
  intros Hwf m pg1.
  pose proof (mount_page component pg Hwf) as [H1 _].
  pose proof (well_formed_fresh pg Hwf) as Hfresh.
  unfold m, pg1. rewrite H1. cbn [fst snd].
  unfold run_unmount, unmount.
  cbn [body elements apps app_calls unmount_host unmount_app].
  rewrite removeChild_last by done.
  eexists _, _. split; [done|]. cbn [body]. unfold removeChild.
  by rewrite bool_decide_eq_false_2.
Qed.

Lemma unmount_twice_witness :
  ∃ pg2 pg3,
    run_unmount (mount 1 (mkPage [0; 1]%nat 2 0 [])).1
      (mount 1 (mkPage [0; 1]%nat 2 0 [])).2
    = (Done (), pg2) ∧
    run_unmount (mount 1 (mkPage [0; 1]%nat 2 0 [])).1 pg2
    = (Threw NotFoundError, pg3) ∧
    body pg3 = [0; 1]%nat.
Proof.
  apply (unmount_twice 1 (mkPage [0; 1]%nat 2 0 [])). repeat constructor.
Defined.
